(** * lib/protoparser/native: ParseStream

    A model of [streamparser.go]: the reader loop of [ParseStream] as
    functions over a byte stream, the decode workers, the work channel, the
    wait group and the pool of [unmarshalWork] items as a transition system
    in which the reader and the workers interleave freely. *)

From Stdlib Require Import Strings.String Strings.Byte.
From Stdlib Require Import List NArith ZArith Lia Bool Arith.
From Stdlib Require Import Sorting.Permutation.
Import ListNotations.
Local Open Scope list_scope.

Set Implicit Arguments.

(** ** Results of fallible calls *)

Inductive res (E A : Type) : Type :=
| Ok (a : A)
| Err (e : E).
Arguments Ok {E A} a.
Arguments Err {E A} e.

(** ** The buffered request body

    [br] delivers [avail] and then ends: with a clean end of stream, or,
    when [broken] is set, with a transport failure. *)

Inductive ioerr : Type :=
| EOF
| ErrUnexpectedEOF
| ErrTransport.

Record Reader : Type := mkReader {
  avail : list byte;
  broken : bool
}.

(** [io.ReadFull(br, buf)] with [len(buf) = n]: all [n] bytes, or an error.
    No byte at a clean end is [io.EOF], some but too few is
    [io.ErrUnexpectedEOF]; a buffer of length 0 is filled without a read. *)
Definition ReadFull (br : Reader) (n : nat) : res ioerr (list byte * Reader) :=
  if n <=? length (avail br) then
    Ok (firstn n (avail br), mkReader (skipn n (avail br)) (broken br))
  else if broken br then Err ErrTransport
  else match avail br with
       | [] => Err EOF
       | _ :: _ => Err ErrUnexpectedEOF
       end.

(** ** Counters ([metrics.NewCounter], lines 144-152) *)

Record Counters : Type := mkCounters {
  readCalls : N;
  readErrors : N;
  rowsRead : N;
  blocksRead : N;
  parseErrors : N;
  processErrors : N
}.

Definition readCalls_Inc (c : Counters) : Counters :=
  mkCounters (readCalls c + 1) (readErrors c) (rowsRead c) (blocksRead c)
             (parseErrors c) (processErrors c).
Definition readErrors_Inc (c : Counters) : Counters :=
  mkCounters (readCalls c) (readErrors c + 1) (rowsRead c) (blocksRead c)
             (parseErrors c) (processErrors c).
Definition rowsRead_Add (n : nat) (c : Counters) : Counters :=
  mkCounters (readCalls c) (readErrors c) (rowsRead c + N.of_nat n) (blocksRead c)
             (parseErrors c) (processErrors c).
Definition blocksRead_Inc (c : Counters) : Counters :=
  mkCounters (readCalls c) (readErrors c) (rowsRead c) (blocksRead c + 1)
             (parseErrors c) (processErrors c).
Definition parseErrors_Inc (c : Counters) : Counters :=
  mkCounters (readCalls c) (readErrors c) (rowsRead c) (blocksRead c)
             (parseErrors c + 1) (processErrors c).
Definition processErrors_Inc (c : Counters) : Counters :=
  mkCounters (readCalls c) (readErrors c) (rowsRead c) (blocksRead c)
             (parseErrors c) (processErrors c + 1).

(** ** Errors returned by [ParseStream], one constructor per [fmt.Errorf] *)

Inductive error : Type :=
| ErrGzip                                   (* cannot read gzipped vmimport data *)
| ErrReadTimeRange (e : ioerr)              (* cannot read time range *)
| ErrReadMetricNameSize (e : ioerr)         (* cannot read metricName size *)
| ErrTooBigMetricNameSize (got : N)         (* too big metricName size *)
| ErrReadMetricName (size : N) (e : ioerr)  (* cannot read metricName with size *)
| ErrReadBlockSize (e : ioerr)              (* cannot read native block size *)
| ErrTooBigBlockSize (got : N)              (* too big native block size *)
| ErrReadBlock (size : N) (e : ioerr).      (* cannot read native block with size *)

(** The errors that wrap a failed [io.ReadFull]. *)
Definition isStreamReadError (e : error) : bool :=
  match e with
  | ErrReadTimeRange _ | ErrReadMetricNameSize _ | ErrReadMetricName _ _
  | ErrReadBlockSize _ | ErrReadBlock _ _ => true
  | _ => false
  end.

(** The errors of the two [bufSize > 1024*1024] guards. *)
Definition isProtocolLimitError (e : error) : bool :=
  match e with
  | ErrTooBigMetricNameSize _ | ErrTooBigBlockSize _ => true
  | _ => false
  end.

Definition maxBufSize : N := 1024 * 1024.

Record TimeRange : Type := mkTimeRange {
  MinTimestamp : Z;
  MaxTimestamp : Z
}.

Definition TimeRange_zero : TimeRange := mkTimeRange 0 0.

(** ** What the package imports

    [storage.MetricName] and [float64] values are kept abstract, and the
    decoders of [lib/encoding], [lib/storage] and [lib/protoparser/common]
    are taken as they come.

    Modelled from the spec: [storage.Block] is not among the files of the
    package; the spec describes a decoded block as timestamp/value pairs in
    the order the decoder produced them, which is what [UnmarshalPortable]
    yields here, next to the bytes it left over. *)

Class Codecs : Type := {
  MetricNameT : Type;
  MetricName_zero : MetricNameT;
  float64 : Type;
  UnmarshalUint32 : list byte -> N;
  UnmarshalInt64 : list byte -> Z;
  GetGzipReader : Reader -> option Reader;
  UnmarshalNoAccountIDProjectID : list byte -> option MetricNameT;
  UnmarshalPortable : list byte -> option (list (Z * float64) * list byte)
}.

Section Data.

Context {Cd : Codecs}.

(** Modelled from the spec: a decoded [storage.Block] is the sequence of its
    (timestamp, value) rows. *)
Definition StorageBlock : Type := list (Z * float64).

(** Modelled from the spec: [storage.Block.AppendRowsWithTimeRangeFilter] is
    not among the files of the package; the spec has it keep the rows whose
    timestamp lies within [[MinTimestamp, MaxTimestamp]], both inclusive, and
    drop the others. The kept rows are appended to the destinations. *)
Definition inTimeRange (tr : TimeRange) (t : Z) : bool :=
  (MinTimestamp tr <=? t)%Z && (t <=? MaxTimestamp tr)%Z.

Definition AppendRowsWithTimeRangeFilter (b : StorageBlock)
    (dstTimestamps : list Z) (dstValues : list float64) (tr : TimeRange)
  : list Z * list float64 :=
  let kept := filter (fun row => inTimeRange tr (fst row)) b in
  (dstTimestamps ++ map fst kept, dstValues ++ map snd kept).

(** ** Block and unmarshalWork (lines 131-165) *)

Record Block : Type := mkBlock {
  MetricName : MetricNameT;
  Values : list float64;
  Timestamps : list Z
}.

Definition Block_reset (b : Block) : Block :=
  mkBlock MetricName_zero [] [].

(* [tr_] is the field [tr], which nothing in the file assigns. *)
Record unmarshalWork : Type := mkWork {
  tr_ : TimeRange;
  metricNameBuf : list byte;
  blockBuf : list byte;
  block : Block
}.

Definition unmarshalWork_zero : unmarshalWork :=
  mkWork TimeRange_zero [] [] (mkBlock MetricName_zero [] []).

Definition reset (uw : unmarshalWork) : unmarshalWork :=
  mkWork (tr_ uw) [] [] (Block_reset (block uw)).

(** ** unmarshalWork.unmarshal (lines 167-182) *)

Inductive unmarshalError : Type :=
| ErrUnmarshalMetricName (n : nat)
| ErrUnmarshalBlock (n : nat)
| ErrNonEmptyTail (n tail : nat).

Definition unmarshal (uw : unmarshalWork) (tr : TimeRange) (c : Counters)
  : res unmarshalError unmarshalWork * Counters :=
  match UnmarshalNoAccountIDProjectID (metricNameBuf uw) with
  | None => (Err (ErrUnmarshalMetricName (length (metricNameBuf uw))), c)
  | Some mn =>
    match UnmarshalPortable (blockBuf uw) with
    | None => (Err (ErrUnmarshalBlock (length (blockBuf uw))), c)
    | Some (tmpBlock, tail) =>
      if 0 <? length tail then
        (Err (ErrNonEmptyTail (length (blockBuf uw)) (length tail)), c)
      else
        let '(ts, vs) := AppendRowsWithTimeRangeFilter tmpBlock [] [] tr in
        (Ok (mkWork (tr_ uw) (metricNameBuf uw) (blockBuf uw) (mkBlock mn vs ts)),
         rowsRead_Add (length ts) c)
    end
  end.

(** ** One record of the reader loop (lines 85-124)

    [uw] is the item obtained for this record; the outcome is the clean end,
    a fatal error, or the filled item that is about to be sent. *)

Inductive recOutcome : Type :=
| RecEnd
| RecErr (e : error)
| RecOk (uw : unmarshalWork) (br : Reader).

Definition readRecord (br : Reader) (uw : unmarshalWork) (c : Counters)
  : recOutcome * Counters :=
  match ReadFull br 4 with
  | Err EOF => (RecEnd, c)
  | Err e => (RecErr (ErrReadMetricNameSize e), readErrors_Inc c)
  | Ok (sizeBuf, br) =>
    let c := readCalls_Inc c in
    let bufSize := UnmarshalUint32 sizeBuf in
    if (maxBufSize <? bufSize)%N then
      (RecErr (ErrTooBigMetricNameSize bufSize), parseErrors_Inc c)
    else
      match ReadFull br (N.to_nat bufSize) with
      | Err e => (RecErr (ErrReadMetricName bufSize e), readErrors_Inc c)
      | Ok (nameBuf, br) =>
        let uw := mkWork (tr_ uw) nameBuf (blockBuf uw) (block uw) in
        let c := readCalls_Inc c in
        match ReadFull br 4 with
        | Err e => (RecErr (ErrReadBlockSize e), readErrors_Inc c)
        | Ok (sizeBuf, br) =>
          let c := readCalls_Inc c in
          let bufSize := UnmarshalUint32 sizeBuf in
          if (maxBufSize <? bufSize)%N then
            (RecErr (ErrTooBigBlockSize bufSize), parseErrors_Inc c)
          else
            match ReadFull br (N.to_nat bufSize) with
            | Err e => (RecErr (ErrReadBlock bufSize e), readErrors_Inc c)
            | Ok (blkBuf, br) =>
              let uw := mkWork (tr_ uw) (metricNameBuf uw) blkBuf (block uw) in
              (RecOk uw br, blocksRead_Inc (readCalls_Inc c))
            end
        end
      end
  end.

(** ** The globals and the pool (lines 144-152, 184-197)

    Next to the counters and the pool, a record of what happened: [calls]
    lists the blocks handed to the callback and [sends] the items sent on
    the channel, each in the order of the events; [gets] and [puts] count
    the calls of [getUnmarshalWork] and [putUnmarshalWork]. The counters
    are 64-bit and do not wrap within a call. *)

Record Env : Type := mkEnv {
  cnt : Counters;
  pool : list unmarshalWork;
  calls : list Block;
  sends : list unmarshalWork;
  gets : nat;
  puts : nat
}.

Definition withCnt (c : Counters) (e : Env) : Env :=
  mkEnv c (pool e) (calls e) (sends e) (gets e) (puts e).

Definition withSend (uw : unmarshalWork) (e : Env) : Env :=
  mkEnv (cnt e) (pool e) (calls e) (sends e ++ [uw]) (gets e) (puts e).

(** [sync.Pool.Get] hands out any pooled item or none at all, in which case
    the item is a new [&unmarshalWork{}]. *)
Inductive getUnmarshalWork (e : Env) : unmarshalWork -> Env -> Prop :=
| get_new :
    getUnmarshalWork e unmarshalWork_zero
      (mkEnv (cnt e) (pool e) (calls e) (sends e) (S (gets e)) (puts e))
| get_pooled p1 v p2 :
    pool e = p1 ++ v :: p2 ->
    getUnmarshalWork e v
      (mkEnv (cnt e) (p1 ++ p2) (calls e) (sends e) (S (gets e)) (puts e)).

Definition putUnmarshalWork (uw : unmarshalWork) (e : Env) : Env :=
  mkEnv (cnt e) (reset uw :: pool e) (calls e) (sends e) (gets e) (S (puts e)).

End Data.

(** ** What the caller brings

    [callback past b] tells whether the callback returns an error for [b]
    after the invocations [past]; [gomaxprocs] is what
    [runtime.GOMAXPROCS(-1)] reports, at least one. *)

Class Caller {Cd : Codecs} : Type := {
  callback : list Block -> Block -> bool;
  gomaxprocs : positive
}.

Section Call.

Context {Cd : Codecs} {Cl : Caller}.

(** ** The body of the worker loop (lines 63-75) *)

Definition processWork (tr : TimeRange) (uw : unmarshalWork) (e : Env) : Env :=
  match unmarshal uw tr (cnt e) with
  | (Err _, c) => putUnmarshalWork uw (withCnt (parseErrors_Inc c) e)
  | (Ok uw, c) =>
    let failed := callback (calls e) (block uw) in
    let e := mkEnv c (pool e) (calls e ++ [block uw]) (sends e) (gets e) (puts e) in
    if failed then putUnmarshalWork uw (withCnt (processErrors_Inc (cnt e)) e)
    else putUnmarshalWork uw e
  end.

(** ** The goroutines of one call

    The calling goroutine is at the top of the loop, blocked in
    [workCh <- uw], past its [return] with the deferred function still to
    run, inside [wg.Wait()], or back in the caller. A worker waits on the
    channel, holds an item, or is gone. *)

Inductive mainPhase : Type :=
| MLoop (br : Reader)
| MSend (uw : unmarshalWork) (br : Reader)
| MDefer (ret : option error)
| MWait (ret : option error)
| MDone (ret : option error).

Inductive workerPhase : Type :=
| WRecv
| WBusy (uw : unmarshalWork)
| WExit.

Record sys : Type := mkSys {
  main : mainPhase;
  workCh : list unmarshalWork;
  chClosed : bool;
  workers : list workerPhase;
  wg : nat;
  tr : TimeRange;
  env : Env
}.

Record Request : Type := mkRequest {
  ContentEncoding : string;
  Body : Reader
}.

(** Lines 26-78: up to the first iteration of the loop. The two early
    returns happen before the channel, the deferred function and the workers
    exist. *)
Definition earlyReturn (err : error) (e : Env) : sys :=
  mkSys (MDone (Some err)) [] false [] 0 TimeRange_zero e.

Definition bodyReader (req : Request) : option Reader :=
  if String.eqb (ContentEncoding req) "gzip"%string then GetGzipReader (Body req)
  else Some (Body req).

Definition ParseStream_start (req : Request) (e : Env) : sys :=
  match bodyReader req with
  | None => earlyReturn ErrGzip e
  | Some br =>
    match ReadFull br 16 with
    | Err err => earlyReturn (ErrReadTimeRange err) (withCnt (readErrors_Inc (cnt e)) e)
    | Ok (trBuf, br) =>
      let tr := mkTimeRange (UnmarshalInt64 trBuf) (UnmarshalInt64 (skipn 8 trBuf)) in
      mkSys (MLoop br) [] false
            (repeat WRecv (Pos.to_nat gomaxprocs)) (Pos.to_nat gomaxprocs) tr e
    end
  end.

Definition afterRecord (o : recOutcome) : mainPhase :=
  match o with
  | RecEnd => MDefer None
  | RecErr e => MDefer (Some e)
  | RecOk uw br => MSend uw br
  end.

Inductive step : sys -> sys -> Prop :=
(* lines 83-124: one record, up to the send *)
| step_read br q cl ws n t e uw e1 o c :
    getUnmarshalWork e uw e1 ->
    readRecord br uw (cnt e1) = (o, c) ->
    step (mkSys (MLoop br) q cl ws n t e)
         (mkSys (afterRecord o) q cl ws n t (withCnt c e1))
(* line 127: the send goes through when the channel has room *)
| step_send uw br q cl ws n t e :
    length q < 8 * Pos.to_nat gomaxprocs ->
    step (mkSys (MSend uw br) q cl ws n t e)
         (mkSys (MLoop br) (q ++ [uw]) cl ws n t (withSend uw e))
(* line 54 *)
| step_close ret q cl ws n t e :
    step (mkSys (MDefer ret) q cl ws n t e)
         (mkSys (MWait ret) q true ws n t e)
(* line 55 *)
| step_wait ret q cl ws t e :
    step (mkSys (MWait ret) q cl ws 0 t e)
         (mkSys (MDone ret) q cl ws 0 t e)
(* line 62: a worker receives the oldest item *)
| step_recv m uw q cl ws1 ws2 n t e :
    step (mkSys m (uw :: q) cl (ws1 ++ WRecv :: ws2) n t e)
         (mkSys m q cl (ws1 ++ WBusy uw :: ws2) n t e)
(* lines 63-75 *)
| step_work m uw q cl ws1 ws2 n t e :
    step (mkSys m q cl (ws1 ++ WBusy uw :: ws2) n t e)
         (mkSys m q cl (ws1 ++ WRecv :: ws2) n t (processWork t uw e))
(* lines 62, 60: the channel is closed and empty, the worker leaves *)
| step_exit m ws1 ws2 n t e :
    step (mkSys m [] true (ws1 ++ WRecv :: ws2) n t e)
         (mkSys m [] true (ws1 ++ WExit :: ws2) (pred n) t e).

Inductive steps : sys -> sys -> Prop :=
| steps_refl s : steps s s
| steps_step s1 s2 s3 : steps s1 s2 -> step s2 s3 -> steps s1 s3.

(** [ParseStream req] called with globals [e] can come back to its caller
    in state [s], returning [ret]. *)
Definition ParseStream (req : Request) (e : Env) (ret : option error) (s : sys) : Prop :=
  steps (ParseStream_start req e) s /\ main s = MDone ret.

(** ** The reader on its own

    What the loop does from [br] when nothing else runs: the items it sends,
    what it returns, and what it adds to the counters. Every record takes at
    least the eight bytes of its two sizes, so [length (avail br)] rounds
    are never used up. *)

Definition Counters_zero : Counters := mkCounters 0 0 0 0 0 0.

Definition Counters_add (c d : Counters) : Counters :=
  mkCounters (readCalls c + readCalls d) (readErrors c + readErrors d)
             (rowsRead c + rowsRead d) (blocksRead c + blocksRead d)
             (parseErrors c + parseErrors d) (processErrors c + processErrors d).

Fixpoint readLoop (fuel : nat) (br : Reader)
  : list unmarshalWork * option error * Counters :=
  match fuel with
  | O => ([], None, Counters_zero)
  | S fuel =>
    match readRecord br unmarshalWork_zero Counters_zero with
    | (RecEnd, d) => ([], None, d)
    | (RecErr e, d) => ([], Some e, d)
    | (RecOk uw br, d) =>
      let '(l, ret, d') := readLoop fuel br in
      (uw :: l, ret, Counters_add d d')
    end
  end.

Definition readAll (br : Reader) : list unmarshalWork * option error * Counters :=
  readLoop (S (length (avail br))) br.

Definition sent (br : Reader) : list unmarshalWork := fst (fst (readAll br)).
Definition returned (br : Reader) : option error := snd (fst (readAll br)).
Definition counted (br : Reader) : Counters := snd (readAll br).

(** Whether [unmarshal] succeeds on an item, and how many rows it keeps. *)
Definition decodes (t : TimeRange) (uw : unmarshalWork) : bool :=
  match fst (unmarshal uw t Counters_zero) with
  | Ok _ => true
  | Err _ => false
  end.

Definition rowsOf (t : TimeRange) (uw : unmarshalWork) : nat :=
  match fst (unmarshal uw t Counters_zero) with
  | Ok uw => length (Timestamps (block uw))
  | Err _ => 0
  end.

Definition decoded (t : TimeRange) (l : list unmarshalWork) : nat :=
  length (filter (decodes t) l).
Definition undecoded (t : TimeRange) (l : list unmarshalWork) : nat :=
  length (filter (fun uw => negb (decodes t uw)) l).
Definition rowsKept (t : TimeRange) (l : list unmarshalWork) : nat :=
  list_sum (map (rowsOf t) l).

(** The frame of a payload: four size bytes that decode to its length. *)
Definition framed (sizeBuf payload : list byte) : Prop :=
  length sizeBuf = 4 /\
  UnmarshalUint32 sizeBuf = N.of_nat (length payload) /\
  (N.of_nat (length payload) <= maxBufSize)%N.

(** A record on the wire: the metric-name frame, then the block-data frame. *)
Record wireRecord : Type := mkWire {
  nameSize : list byte;
  nameBytes : list byte;
  blockSize : list byte;
  blockBytes : list byte
}.

Definition wellFramed (r : wireRecord) : Prop :=
  framed (nameSize r) (nameBytes r) /\ framed (blockSize r) (blockBytes r).

Definition wire (r : wireRecord) : list byte :=
  nameSize r ++ nameBytes r ++ blockSize r ++ blockBytes r.

Definition wireAll (rs : list wireRecord) : list byte := flat_map wire rs.

Definition workOf (r : wireRecord) : unmarshalWork :=
  mkWork TimeRange_zero (nameBytes r) (blockBytes r) (mkBlock MetricName_zero [] []).

(** The two payloads an item carries, and those of a record. *)
Definition bufsOf (uw : unmarshalWork) : list byte * list byte :=
  (metricNameBuf uw, blockBuf uw).

Definition payloads (r : wireRecord) : list byte * list byte :=
  (nameBytes r, blockBytes r).

(** ** Where a state is heading

    The items a state still has to decode are those held by workers, those
    in the channel, the one being sent, and those the reader has yet to
    send. [finish] adds what they will contribute to what has already
    happened. *)

Definition held (w : workerPhase) : list unmarshalWork :=
  match w with
  | WBusy uw => [uw]
  | _ => []
  end.

Definition sending (m : mainPhase) : list unmarshalWork :=
  match m with
  | MSend uw _ => [uw]
  | _ => []
  end.

Definition inFlight (s : sys) : list unmarshalWork :=
  flat_map held (workers s) ++ workCh s ++ sending (main s).

Definition ahead (m : mainPhase) : list unmarshalWork * option error * Counters :=
  match m with
  | MLoop br | MSend _ br => readAll br
  | MDefer ret | MWait ret | MDone ret => ([], ret, Counters_zero)
  end.

Definition toGet (m : mainPhase) : nat :=
  match m with
  | MLoop br | MSend _ br => S (length (sent br))
  | _ => 0
  end.

Record Summary : Type := mkSummary {
  sRet : option error;
  sReadCalls : N;
  sReadErrors : N;
  sRowsRead : N;
  sBlocksRead : N;
  sParseErrors : N;
  sCalls : nat;
  sSent : list (list byte * list byte);
  sGets : nat;
  sPuts : nat
}.

Definition finish (s : sys) : Summary :=
  let '(l, ret, d) := ahead (main s) in
  let todo := inFlight s ++ l in
  let c := cnt (env s) in
  mkSummary ret
    (readCalls c + readCalls d)
    (readErrors c + readErrors d)
    (rowsRead c + N.of_nat (rowsKept (tr s) todo))
    (blocksRead c + blocksRead d)
    (parseErrors c + parseErrors d + N.of_nat (undecoded (tr s) todo))
    (length (calls (env s)) + decoded (tr s) todo)
    (map bufsOf (sends (env s) ++ sending (main s) ++ l))
    (gets (env s) + toGet (main s))
    (puts (env s) + length todo).

(** ** What holds of every state after the workers were started *)

Definition live (ws : list workerPhase) : nat :=
  length (filter (fun w => match w with WExit => false | _ => true end) ws).

Definition phaseOk (s : sys) : Prop :=
  match main s with
  | MLoop _ | MSend _ _ | MDefer _ => chClosed s = false
  | MWait _ => chClosed s = true
  | MDone _ => chClosed s = true /\ wg s = 0
  end.

Record Inv (s : sys) : Prop := mkInv {
  inv_workers : length (workers s) = Pos.to_nat gomaxprocs;
  inv_wg : wg s = live (workers s);
  inv_open : chClosed s = false -> live (workers s) = length (workers s);
  inv_gone : live (workers s) < length (workers s) -> workCh s = [];
  inv_phase : phaseOk s
}.

(** A variant that every step decreases. *)
Definition phaseWeight (m : mainPhase) : nat :=
  match m with
  | MLoop br => 5 * length (avail br) + 3
  | MSend _ br => 5 * length (avail br) + 7
  | MDefer _ => 2
  | MWait _ => 1
  | MDone _ => 0
  end.

Definition workerWeight (w : workerPhase) : nat :=
  match w with
  | WBusy _ => 2
  | WRecv => 1
  | WExit => 0
  end.

Definition weight (s : sys) : nat :=
  phaseWeight (main s) + 3 * length (workCh s)
  + list_sum (map workerWeight (workers s)).

(** Every timestamp of a block lies in the time range. *)
Definition blockInRange (t : TimeRange) (b : Block) : Prop :=
  Forall (fun ts => (MinTimestamp t <= ts <= MaxTimestamp t)%Z) (Timestamps b).

(** ** Vocabulary of the statements *)

(** The state in which the loop is entered, and the time range the header
    gives. *)
Definition started (br : Reader) (t : TimeRange) (e : Env) : sys :=
  mkSys (MLoop br) [] false
        (repeat WRecv (Pos.to_nat gomaxprocs)) (Pos.to_nat gomaxprocs) t e.

Definition headerRange (hdr : list byte) : TimeRange :=
  mkTimeRange (UnmarshalInt64 hdr) (UnmarshalInt64 (skipn 8 hdr)).

(** What a finished call shows of the globals. *)
Definition observed (ret : option error) (e : Env) : Summary :=
  mkSummary ret (readCalls (cnt e)) (readErrors (cnt e)) (rowsRead (cnt e))
    (blocksRead (cnt e)) (parseErrors (cnt e))
    (length (calls e)) (map bufsOf (sends e)) (gets e) (puts e).

(** The call does come back, and only ever with [ret]. *)
Definition returnsOnly (req : Request) (e : Env) (ret : option error) : Prop :=
  (exists s, ParseStream req e ret s) /\
  (forall ret' s, ParseStream req e ret' s -> ret' = ret).

(** A stream that ends inside a record: within the first size, within the
    metric name, at or within the second size, within the block data. *)
Inductive truncated : list byte -> Prop :=
| trunc_nameSize l :
    0 < length l < 4 -> truncated l
| trunc_name sz p :
    length sz = 4 -> (UnmarshalUint32 sz <= maxBufSize)%N ->
    length p < N.to_nat (UnmarshalUint32 sz) -> truncated (sz ++ p)
| trunc_blockSize sz nm q :
    framed sz nm -> length q < 4 -> truncated (sz ++ nm ++ q)
| trunc_block sz nm sz2 p :
    framed sz nm -> length sz2 = 4 -> (UnmarshalUint32 sz2 <= maxBufSize)%N ->
    length p < N.to_nat (UnmarshalUint32 sz2) ->
    truncated (sz ++ nm ++ sz2 ++ p).

(** An item reads as empty. *)
Definition isReset (uw : unmarshalWork) : Prop := uw = reset uw.

(** Every item obtained has been put back. *)
Definition nothingHeld (e : Env) (s : sys) : Prop :=
  gets (env s) - gets e = puts (env s) - puts e.

(** The items the reader sends over the whole call: none when the call
    returns before the loop. *)
Definition sentBy (req : Request) : list unmarshalWork :=
  match bodyReader req with
  | None => []
  | Some br =>
    match ReadFull br 16 with
    | Err _ => []
    | Ok (_, br) => sent br
    end
  end.

End Call.

(** ** Sample codecs, caller and streams

    Big-endian sizes and timestamps, a metric name that must not be empty,
    and block data made of a row count followed by that many
    (timestamp, value) byte pairs; a callback that turns every block down. *)

Fixpoint bigEndian (l : list byte) (acc : N) : N :=
  match l with
  | [] => acc
  | b :: l => bigEndian l (acc * 256 + Byte.to_N b)
  end.

Definition sampleUint32 (l : list byte) : N := bigEndian (firstn 4 l) 0.

Definition sampleInt64 (l : list byte) : Z := Z.of_N (bigEndian (firstn 8 l) 0).

Definition sampleMetricName (l : list byte) : option (list byte) :=
  match l with
  | [] => None
  | _ :: _ => Some l
  end.

Fixpoint sampleRows (n : nat) (l : list byte) : option (list (Z * Z) * list byte) :=
  match n with
  | O => Some ([], l)
  | S n =>
    match l with
    | t :: v :: l =>
      match sampleRows n l with
      | Some (rows, tl) =>
          Some ((Z.of_N (Byte.to_N t), Z.of_N (Byte.to_N v)) :: rows, tl)
      | None => None
      end
    | _ => None
    end
  end.

Definition samplePortable (l : list byte) : option (list (Z * Z) * list byte) :=
  match l with
  | [] => None
  | n :: l => sampleRows (N.to_nat (Byte.to_N n)) l
  end.

Definition sampleCodecs : Codecs := {|
  MetricNameT := list byte;
  MetricName_zero := [];
  float64 := Z;
  UnmarshalUint32 := sampleUint32;
  UnmarshalInt64 := sampleInt64;
  GetGzipReader := fun _ => None;
  UnmarshalNoAccountIDProjectID := sampleMetricName;
  UnmarshalPortable := samplePortable
|}.

Definition sampleCaller : @Caller sampleCodecs := {|
  callback := fun _ _ => true;
  gomaxprocs := 2
|}.

Definition sampleEnv : @Env sampleCodecs := mkEnv Counters_zero [] [] [] 0 0.

(* the time range [10, 20] *)
Definition sampleHeader : list byte :=
  [x00; x00; x00; x00; x00; x00; x00; x0a; x00; x00; x00; x00; x00; x00; x00; x14].

(* "cpu" with the rows (9,1) (15,2) (25,3) *)
Definition cpuRecord : wireRecord :=
  mkWire [x00; x00; x00; x03] [x63; x70; x75]
         [x00; x00; x00; x07] [x03; x09; x01; x0f; x02; x19; x03].

(* "cpu" with the row (15,2) and one byte too many *)
Definition trailingRecord : wireRecord :=
  mkWire [x00; x00; x00; x03] [x63; x70; x75]
         [x00; x00; x00; x04] [x01; x0f; x02; xff].

(* both frames empty *)
Definition emptyRecord : wireRecord :=
  mkWire [x00; x00; x00; x00] [] [x00; x00; x00; x00] [].

(* a metric name of exactly 1 MiB *)
Definition fullRecord : wireRecord :=
  mkWire [x00; x10; x00; x00] (repeat x00 (N.to_nat maxBufSize))
         [x00; x00; x00; x00] [].

(* a size of 1 MiB + 1 *)
Definition overSize : list byte := [x00; x10; x00; x01].

Definition plainRequest (body : list byte) : Request :=
  mkRequest "" (mkReader body false).

Section Accounts.

Context {Cd : Codecs} {Cl : Caller}.

(** ** What a call delivers

    The block an item decodes to, if it decodes; the rows in a list of
    blocks; how many blocks of a log the callback answered with an error,
    [past] being the invocations before it. *)

Definition blockOf (t : TimeRange) (uw : unmarshalWork) : list Block :=
  match fst (unmarshal uw t Counters_zero) with
  | Ok uw => [block uw]
  | Err _ => []
  end.

Definition delivered (t : TimeRange) (l : list unmarshalWork) : list Block :=
  flat_map (blockOf t) l.

Definition rowsIn (l : list Block) : nat :=
  list_sum (map (fun b => length (Timestamps b)) l).

Fixpoint rejected (past new : list Block) : nat :=
  match new with
  | [] => 0
  | b :: new =>
      (if callback past b then 1 else 0) + rejected (past ++ [b]) new
  end.

(** The successful reads of the record at which the loop ended: none when
    its first size could not be read, one up to the metric name, two up to
    the second size, three up to the block data. *)
Definition readsBefore (ret : option error) : N :=
  match ret with
  | None | Some ErrGzip | Some (ErrReadTimeRange _)
  | Some (ErrReadMetricNameSize _) => 0
  | Some (ErrTooBigMetricNameSize _) | Some (ErrReadMetricName _ _) => 1
  | Some (ErrReadBlockSize _) => 2
  | Some (ErrTooBigBlockSize _) | Some (ErrReadBlock _ _) => 3
  end.

(** What has been handed over and what the state still holds, in the order
    in which a lone worker would hand it over. *)
Definition handover (s : sys) : list Block :=
  calls (env s) ++ delivered (tr s) (inFlight s ++ fst (fst (ahead (main s)))).

End Accounts.

(** A caller with a single worker, and requests over a failing transport and
    with a gzip encoding the sample codecs cannot open. *)
Definition singleCaller : @Caller sampleCodecs := {|
  callback := fun _ _ => false;
  gomaxprocs := 1
|}.

Definition brokenRequest (body : list byte) : Request :=
  mkRequest "" (mkReader body true).

Definition gzipRequest (body : list byte) : Request :=
  mkRequest "gzip" (mkReader body false).

(* "mem" with the rows (12,7) (18,8) *)
Definition memRecord : wireRecord :=
  mkWire [x00; x00; x00; x03] [x6d; x65; x6d]
         [x00; x00; x00; x05] [x02; x0c; x07; x12; x08].

(** * lib/promscrape/discovery/kubernetes: node labels

    The second file of the sources: how a Kubernetes node becomes a set of
    target labels. A Go map with string keys is an association list in
    which a key occurs once: [amap_set] replaces the value of a key that is
    there and adds the key otherwise. *)

Definition amap (V : Type) : Type := list (string * V).

Fixpoint amap_get (V : Type) (k : string) (m : amap V) : option V :=
  match m with
  | [] => None
  | (k', v) :: m => if String.eqb k' k then Some v else amap_get k m
  end.

Fixpoint amap_set (V : Type) (k : string) (v : V) (m : amap V) : amap V :=
  match m with
  | [] => [(k, v)]
  | (k', v') :: m =>
      if String.eqb k' k then (k, v) :: m else (k', v') :: amap_set k v m
  end.

(** [NodeAddress], lines 77-83; [Type_] is the field [Type]. *)
Record NodeAddress : Type := mkNodeAddress {
  Type_ : string;
  Address : string
}.

(** What the file takes from the rest of its package and from
    [discoveryutils]: the types [ObjectMeta], [ListMeta] and
    [DaemonEndpoint] with the fields and methods used here, and the two
    helpers of [discoveryutils]. *)
Class NodeImports : Type := {
  ObjectMeta : Type;
  Name : ObjectMeta -> string;
  ObjectMeta_key : ObjectMeta -> string;
  registerLabelsAndAnnotations :
    ObjectMeta -> string -> amap string -> amap string;
  ListMeta : Type;
  DaemonEndpoint : Type;
  Port : DaemonEndpoint -> Z;
  JoinHostPort : string -> Z -> string;
  SanitizeLabelName : string -> string
}.

Section Nodes.

Context {Ni : NodeImports}.

(** Lines 53-90. *)
Record NodeDaemonEndpoints : Type := mkNodeDaemonEndpoints {
  KubeletEndpoint : DaemonEndpoint
}.

Record NodeStatus : Type := mkNodeStatus {
  Addresses : list NodeAddress;
  DaemonEndpoints : NodeDaemonEndpoints
}.

Record Node : Type := mkNode {
  Metadata : ObjectMeta;
  Status : NodeStatus
}.

Record NodeList : Type := mkNodeList {
  ListMetadata : ListMeta;
  Items : list Node
}.

(** Lines 29-31. *)
Definition Node_key (n : Node) : string := ObjectMeta_key (Metadata n).

(** Lines 143-150. *)
Fixpoint getAddrByType (nas : list NodeAddress) (typ : string) : string :=
  match nas with
  | [] => ""
  | na :: nas =>
      if String.eqb (Type_ na) typ then Address na else getAddrByType nas typ
  end.

(** Lines 121-141. *)
Definition getNodeAddr (nas : list NodeAddress) : string :=
  let addr := getAddrByType nas "InternalIP" in
  if 0 <? String.length addr then addr else
  let addr := getAddrByType nas "InternalDNS" in
  if 0 <? String.length addr then addr else
  let addr := getAddrByType nas "ExternalIP" in
  if 0 <? String.length addr then addr else
  let addr := getAddrByType nas "ExternalDNS" in
  if 0 <? String.length addr then addr else
  let addr := getAddrByType nas "LegacyHostIP" in
  if 0 <? String.length addr then addr else
  let addr := getAddrByType nas "Hostname" in
  if 0 <? String.length addr then addr else
  ""%string.

(** Lines 108-116: the loop over the addresses, [addrTypesUsed] being the
    types met so far. *)
Fixpoint addressLabels (nas : list NodeAddress) (addrTypesUsed : list string)
    (m : amap string) : amap string :=
  match nas with
  | [] => m
  | a :: nas =>
      if existsb (String.eqb (Type_ a)) addrTypesUsed then
        addressLabels nas addrTypesUsed m
      else
        let ln := SanitizeLabelName (Type_ a) in
        addressLabels nas (Type_ a :: addrTypesUsed)
          (amap_set ("__meta_kubernetes_node_address_" ++ ln)%string
                    (Address a) m)
  end.

(** Lines 95-119. *)
Definition appendTargetLabels (n : Node) (ms : list (amap string))
  : list (amap string) :=
  let addr := getNodeAddr (Addresses (Status n)) in
  if String.length addr =? 0 then ms
  else
    let addr :=
      JoinHostPort addr (Port (KubeletEndpoint (DaemonEndpoints (Status n)))) in
    let m :=
      amap_set "__meta_kubernetes_node_name" (Name (Metadata n))
        (amap_set "instance" (Name (Metadata n))
           (amap_set "__address__" addr [])) in
    let m := registerLabelsAndAnnotations (Metadata n) "__meta_kubernetes_node" m in
    let m := addressLabels (Addresses (Status n)) [] m in
    ms ++ [m].

(** Lines 11-18, on the nodes that [getNodes] gives. *)
Definition getNodesLabels (nodes : list Node) : list (amap string) :=
  fold_left (fun ms n => appendTargetLabels n ms) nodes [].

(** The error of line 36: "cannot unmarshal NodeList from %q: %w", holding
    the data and the error of [json.Unmarshal] that it wraps. *)
Inductive nodeListError : Type :=
| ErrUnmarshalNodeList (data : list byte) (err : string).

(** Lines 33-43; [json_Unmarshal] is [json.Unmarshal] on a [NodeList],
    which leaves the list in some state and may report an error. The items
    are pointers in the source; a nil item, on which [key] would panic, is
    outside the model. *)
Definition parseNodeList (json_Unmarshal : list byte -> NodeList * option string)
    (data : list byte)
  : option (amap Node) * ListMeta * option nodeListError :=
  let '(nl, err) := json_Unmarshal data in
  match err with
  | Some err => (None, ListMetadata nl, Some (ErrUnmarshalNodeList data err))
  | None =>
      (Some (fold_left (fun objectsByKey n => amap_set (Node_key n) n objectsByKey)
                       (Items nl) []),
       ListMetadata nl, None)
  end.

(** The six address types [getNodeAddr] looks for, in its order. *)
Definition addrTypeOrder : list string :=
  ["InternalIP"; "InternalDNS"; "ExternalIP"; "ExternalDNS"; "LegacyHostIP";
   "Hostname"]%string.

(** The first of a list of texts that is not empty, as the chain of tests
    of [getNodeAddr] picks it. *)
Fixpoint firstNonEmpty (l : list string) : string :=
  match l with
  | [] => ""
  | addr :: l => if 0 <? String.length addr then addr else firstNonEmpty l
  end.

(** The first entry of a type, and the key of the label of a type. *)
Definition firstOfType (nas : list NodeAddress) (typ : string) : option NodeAddress :=
  find (fun na => String.eqb (Type_ na) typ) nas.

Definition addressKey (typ : string) : string :=
  ("__meta_kubernetes_node_address_" ++ SanitizeLabelName typ)%string.

End Nodes.

(** Sample imports: metadata that is a name, ports joined with a colon to
    a fixed text, label names left as they are. *)
Definition sampleNodeImports : NodeImports := {|
  ObjectMeta := string;
  Name := fun m => m;
  ObjectMeta_key := fun m => m;
  registerLabelsAndAnnotations := fun _ _ m => m;
  ListMeta := unit;
  DaemonEndpoint := Z;
  Port := fun p => p;
  JoinHostPort := fun h _ => (h ++ ":10250")%string;
  SanitizeLabelName := fun s => s
|}.

Definition sampleAddresses : list NodeAddress :=
  [mkNodeAddress "Hostname" "node-1";
   mkNodeAddress "InternalIP" "";
   mkNodeAddress "ExternalIP" "203.0.113.7";
   mkNodeAddress "InternalIP" "10.0.0.7";
   mkNodeAddress "ExternalIP" "203.0.113.8"]%string.

Definition sampleNode : @Node sampleNodeImports :=
  mkNode ("node-1"%string : @ObjectMeta sampleNodeImports)
         (mkNodeStatus sampleAddresses (mkNodeDaemonEndpoints (10250%Z : @DaemonEndpoint sampleNodeImports))).

Definition bareNode : @Node sampleNodeImports :=
  mkNode ("node-2"%string : @ObjectMeta sampleNodeImports)
         (mkNodeStatus [mkNodeAddress "Other" "192.0.2.1"]%string
                       (mkNodeDaemonEndpoints (10250%Z : @DaemonEndpoint sampleNodeImports))).

(* the name of [sampleNode] again, on a node without addresses *)
Definition laterNode : @Node sampleNodeImports :=
  mkNode ("node-1"%string : @ObjectMeta sampleNodeImports)
         (mkNodeStatus [] (mkNodeDaemonEndpoints (10250%Z : @DaemonEndpoint sampleNodeImports))).

Definition sampleDecoded (data : list byte)
  : @NodeList sampleNodeImports * option string :=
  match data with
  | [] => (mkNodeList (tt : @ListMeta sampleNodeImports) [], Some "unexpected end of JSON input"%string)
  | _ :: _ =>
      (mkNodeList (tt : @ListMeta sampleNodeImports) [sampleNode; bareNode; laterNode], None)
  end.

(* the block of [cpuRecord] within the time range of [sampleHeader], and
   that of [memRecord] *)
Definition cpuBlock : @Block sampleCodecs :=
  mkBlock (nameBytes cpuRecord : @MetricNameT sampleCodecs) [2%Z] [15%Z].

Definition memBlock : @Block sampleCodecs :=
  mkBlock (nameBytes memRecord : @MetricNameT sampleCodecs) [7%Z; 8%Z] [12%Z; 18%Z].

Unset Implicit Arguments.

Section Proofs.

Context {Cd : Codecs} {Cl : Caller}.

(** ** Facts about [ReadFull] and [readRecord] *)

Lemma ReadFull_app (pre rest : list byte) (b : bool) :
  ReadFull (mkReader (pre ++ rest) b) (length pre) = Ok (pre, mkReader rest b).
Proof.
  unfold ReadFull; simpl.
  rewrite length_app.
  replace (length pre <=? length pre + length rest) with true
    by (symmetry; apply Nat.leb_le; lia).
  rewrite firstn_app, Nat.sub_diag, firstn_all; simpl.
  rewrite skipn_app, Nat.sub_diag, skipn_all; simpl.
  now rewrite app_nil_r.
Qed.

Lemma ReadFull_zero (br : Reader) : ReadFull br 0 = Ok ([], br).
Proof. unfold ReadFull; simpl. now destruct br. Qed.

Lemma ReadFull_Ok (br br' : Reader) (n : nat) (buf : list byte) :
  ReadFull br n = Ok (buf, br') ->
  avail br = buf ++ avail br' /\ length buf = n /\ broken br' = broken br.
Proof.
  unfold ReadFull.
  destruct (n <=? length (avail br)) eqn:E.
  - apply Nat.leb_le in E. intros H; inversion H; subst; simpl.
    rewrite firstn_skipn, length_firstn. repeat split; lia.
  - destruct (broken br); [discriminate|]. destruct (avail br); discriminate.
Qed.

Lemma ReadFull_short (l : list byte) (b : bool) (n : nat) :
  length l < n ->
  ReadFull (mkReader l b) n =
  Err (if b then ErrTransport
       else match l with [] => EOF | _ :: _ => ErrUnexpectedEOF end).
Proof.
  intros H. unfold ReadFull; simpl.
  replace (n <=? length l) with false by (symmetry; apply Nat.leb_gt; lia).
  destruct b; [reflexivity|]. now destruct l.
Qed.

Ltac counters_eq :=
  unfold Counters_add, Counters_zero, readCalls_Inc, readErrors_Inc,
    blocksRead_Inc, parseErrors_Inc, processErrors_Inc, rowsRead_Add; simpl;
  f_equal; lia.

Lemma Counters_add_zero (c : Counters) : Counters_add c Counters_zero = c.
Proof. destruct c; counters_eq. Qed.

(** [readRecord] touches only the two buffers of the item, and adds to the
    counters the same amounts whatever they hold. *)
Lemma readRecord_eq (br : Reader) (uw : unmarshalWork) (c : Counters) :
  readRecord br uw c =
  (match fst (readRecord br unmarshalWork_zero Counters_zero) with
   | RecOk u br' =>
       RecOk (mkWork (tr_ uw) (metricNameBuf u) (blockBuf u) (block uw)) br'
   | o => o
   end,
   Counters_add c (snd (readRecord br unmarshalWork_zero Counters_zero))).
Proof.
  unfold readRecord.
  destruct (ReadFull br 4) as [[sz1 br1]|[]]; simpl;
    try (f_equal; destruct c; counters_eq).
  destruct (maxBufSize <? UnmarshalUint32 sz1)%N; simpl;
    try (f_equal; destruct c; counters_eq).
  destruct (ReadFull br1 _) as [[nm br2]|e2]; simpl;
    try (f_equal; destruct c; counters_eq).
  destruct (ReadFull br2 4) as [[sz2 br3]|e3]; simpl;
    try (f_equal; destruct c; counters_eq).
  destruct (maxBufSize <? UnmarshalUint32 sz2)%N; simpl;
    try (f_equal; destruct c; counters_eq).
  destruct (ReadFull br3 _) as [[bl br4]|e4]; simpl;
    f_equal; destruct c; counters_eq.
Qed.

Lemma readRecord_shrinks (br br' : Reader) (uw u : unmarshalWork) (c : Counters) :
  fst (readRecord br uw c) = RecOk u br' ->
  length (avail br') + 8 <= length (avail br) /\ broken br' = broken br.
Proof.
  unfold readRecord.
  destruct (ReadFull br 4) as [[sz1 br1]|[]] eqn:E1; simpl; try discriminate.
  destruct (maxBufSize <? UnmarshalUint32 sz1)%N; simpl; try discriminate.
  destruct (ReadFull br1 _) as [[nm br2]|e2] eqn:E2; simpl; try discriminate.
  destruct (ReadFull br2 4) as [[sz2 br3]|e3] eqn:E3; simpl; try discriminate.
  destruct (maxBufSize <? UnmarshalUint32 sz2)%N; simpl; try discriminate.
  destruct (ReadFull br3 _) as [[bl br4]|e4] eqn:E4; simpl; try discriminate.
  intros H; inversion H; subst.
  apply ReadFull_Ok in E1, E2, E3, E4.
  destruct E1 as (A1 & L1 & B1), E2 as (A2 & L2 & B2),
           E3 as (A3 & L3 & B3), E4 as (A4 & L4 & B4).
  rewrite A1, A2, A3, A4, !length_app. split; [lia|congruence].
Qed.

Lemma readLoop_fuel (fuel fuel' : nat) (br : Reader) :
  length (avail br) < fuel -> length (avail br) < fuel' ->
  readLoop fuel br = readLoop fuel' br.
Proof.
  revert fuel' br. induction fuel as [|fuel IH]; intros fuel' br H H'; [lia|].
  destruct fuel' as [|fuel']; [lia|]. simpl.
  destruct (readRecord br unmarshalWork_zero Counters_zero) as [[| |u br'] d] eqn:E;
    try reflexivity.
  assert (Hs : length (avail br') + 8 <= length (avail br))
    by (eapply readRecord_shrinks; rewrite E; reflexivity).
  rewrite (IH fuel' br') by lia. reflexivity.
Qed.

Lemma readAll_unfold (br : Reader) :
  readAll br =
  match readRecord br unmarshalWork_zero Counters_zero with
  | (RecEnd, d) => ([], None, d)
  | (RecErr e, d) => ([], Some e, d)
  | (RecOk uw br', d) =>
    let '(l, ret, d') := readAll br' in (uw :: l, ret, Counters_add d d')
  end.
Proof.
  unfold readAll at 1. simpl.
  destruct (readRecord br unmarshalWork_zero Counters_zero) as [[| |u br'] d] eqn:E;
    try reflexivity.
  assert (Hs : length (avail br') + 8 <= length (avail br))
    by (eapply readRecord_shrinks; rewrite E; reflexivity).
  unfold readAll. rewrite (readLoop_fuel _ (S (length (avail br')))) by lia.
  reflexivity.
Qed.

(** ** Facts about [unmarshal] and [processWork] *)

Lemma unmarshal_counters (uw : unmarshalWork) (t : TimeRange) (c : Counters) :
  match unmarshal uw t c with
  | (Ok uw', c') =>
      decodes t uw = true /\ rowsOf t uw = length (Timestamps (block uw')) /\
      c' = rowsRead_Add (rowsOf t uw) c
  | (Err _, c') => decodes t uw = false /\ rowsOf t uw = 0 /\ c' = c
  end.
Proof.
  unfold decodes, rowsOf, unmarshal.
  destruct (UnmarshalNoAccountIDProjectID (metricNameBuf uw)); simpl; auto.
  destruct (UnmarshalPortable (blockBuf uw)) as [[b tl]|]; simpl; auto.
  destruct (0 <? length tl); simpl; auto.
Qed.

Lemma decodes_bufs (t a a' : TimeRange) (n b : list byte) (k k' : Block) :
  decodes t (mkWork a n b k) = decodes t (mkWork a' n b k').
Proof.
  unfold decodes, unmarshal; simpl.
  destruct (UnmarshalNoAccountIDProjectID n); simpl; auto.
  destruct (UnmarshalPortable b) as [[sb tl]|]; simpl; auto.
  destruct (0 <? length tl); simpl; auto.
Qed.

Lemma rowsOf_bufs (t a a' : TimeRange) (n b : list byte) (k k' : Block) :
  rowsOf t (mkWork a n b k) = rowsOf t (mkWork a' n b k').
Proof.
  unfold rowsOf, unmarshal; simpl.
  destruct (UnmarshalNoAccountIDProjectID n); simpl; auto.
  destruct (UnmarshalPortable b) as [[sb tl]|]; simpl; auto.
  destruct (0 <? length tl); simpl; auto.
Qed.

Lemma decoded_app (t : TimeRange) (l1 l2 : list unmarshalWork) :
  decoded t (l1 ++ l2) = decoded t l1 + decoded t l2.
Proof. unfold decoded. now rewrite filter_app, length_app. Qed.

Lemma undecoded_app (t : TimeRange) (l1 l2 : list unmarshalWork) :
  undecoded t (l1 ++ l2) = undecoded t l1 + undecoded t l2.
Proof. unfold undecoded. now rewrite filter_app, length_app. Qed.

Lemma rowsKept_app (t : TimeRange) (l1 l2 : list unmarshalWork) :
  rowsKept t (l1 ++ l2) = rowsKept t l1 + rowsKept t l2.
Proof. unfold rowsKept. now rewrite map_app, list_sum_app. Qed.

Lemma decoded_cons (t : TimeRange) (uw : unmarshalWork) (l : list unmarshalWork) :
  decoded t (uw :: l) = (if decodes t uw then 1 else 0) + decoded t l.
Proof. unfold decoded; simpl. now destruct (decodes t uw). Qed.

Lemma undecoded_cons (t : TimeRange) (uw : unmarshalWork) (l : list unmarshalWork) :
  undecoded t (uw :: l) = (if decodes t uw then 0 else 1) + undecoded t l.
Proof. unfold undecoded; simpl. now destruct (decodes t uw). Qed.

Lemma rowsKept_cons (t : TimeRange) (uw : unmarshalWork) (l : list unmarshalWork) :
  rowsKept t (uw :: l) = rowsOf t uw + rowsKept t l.
Proof. reflexivity. Qed.

Lemma decoded_undecoded (t : TimeRange) (l : list unmarshalWork) :
  decoded t l + undecoded t l = length l.
Proof.
  induction l as [|uw l IH]; [reflexivity|].
  rewrite decoded_cons, undecoded_cons; simpl. destruct (decodes t uw); lia.
Qed.

Lemma processWork_effect (t : TimeRange) (uw : unmarshalWork) (e : Env) :
  let e' := processWork t uw e in
  readCalls (cnt e') = readCalls (cnt e) /\
  readErrors (cnt e') = readErrors (cnt e) /\
  blocksRead (cnt e') = blocksRead (cnt e) /\
  rowsRead (cnt e') = (rowsRead (cnt e) + N.of_nat (rowsOf t uw))%N /\
  parseErrors (cnt e') =
    (parseErrors (cnt e) + (if decodes t uw then 0 else 1))%N /\
  length (calls e') = length (calls e) + (if decodes t uw then 1 else 0) /\
  sends e' = sends e /\ gets e' = gets e /\ puts e' = S (puts e).
Proof.
  unfold processWork.
  pose proof (unmarshal_counters uw t (cnt e)) as H.
  destruct (unmarshal uw t (cnt e)) as [[uw'|err] c'].
  - destruct H as (D & R & ->). rewrite D.
    destruct (callback (calls e) (block uw')); simpl;
      rewrite length_app; simpl; repeat split; lia.
  - destruct H as (D & R & ->). rewrite D, R. simpl. repeat split; lia.
Qed.

Lemma decoded_nil (t : TimeRange) : decoded t [] = 0.
Proof. reflexivity. Qed.

Lemma undecoded_nil (t : TimeRange) : undecoded t [] = 0.
Proof. reflexivity. Qed.

Lemma rowsKept_nil (t : TimeRange) : rowsKept t [] = 0.
Proof. reflexivity. Qed.

Ltac tally_rw :=
  repeat progress
    (cbn [flat_map held sending app length];
     rewrite ?flat_map_app, ?decoded_app, ?undecoded_app, ?rowsKept_app,
       ?length_app, ?decoded_cons, ?undecoded_cons, ?rowsKept_cons,
       ?decoded_nil, ?undecoded_nil, ?rowsKept_nil).

Ltac tally :=
  tally_rw;
  repeat match goal with
         | |- context [if decodes ?t ?u then _ else _] => destruct (decodes t u)
         end.

(** ** Every step leaves [finish] as it is *)

Lemma step_tr (s s' : sys) : step s s' -> tr s' = tr s.
Proof. now destruct 1. Qed.

Lemma readRecord_rowsRead (br : Reader) (uw : unmarshalWork) (c : Counters) :
  rowsRead (snd (readRecord br uw c)) = rowsRead c.
Proof.
  unfold readRecord.
  destruct (ReadFull br 4) as [[sz1 br1]|[]]; simpl; auto.
  destruct (maxBufSize <? UnmarshalUint32 sz1)%N; simpl; auto.
  destruct (ReadFull br1 _) as [[nm br2]|e2]; simpl; auto.
  destruct (ReadFull br2 4) as [[sz2 br3]|e3]; simpl; auto.
  destruct (maxBufSize <? UnmarshalUint32 sz2)%N; simpl; auto.
  destruct (ReadFull br3 _) as [[bl br4]|e4]; simpl; auto.
Qed.

Lemma getUnmarshalWork_effect (e e1 : Env) (uw : unmarshalWork) :
  getUnmarshalWork e uw e1 ->
  cnt e1 = cnt e /\ calls e1 = calls e /\ sends e1 = sends e /\
  gets e1 = S (gets e) /\ puts e1 = puts e.
Proof. now destruct 1. Qed.

Lemma step_finish (s s' : sys) : step s s' -> finish s' = finish s.
Proof.
  destruct 1 as [br q cl ws n t e uw e1 o c G R | uw br q cl ws n t e L
                | ret q cl ws n t e | ret q cl ws t e
                | m uw q cl ws1 ws2 n t e | m uw q cl ws1 ws2 n t e
                | m ws1 ws2 n t e].
  - apply getUnmarshalWork_effect in G. destruct G as (Gc & Gl & Gs & Gg & Gp).
    rewrite readRecord_eq in R. inversion R; subst o c; clear R.
    unfold finish, inFlight, toGet, sent; simpl.
    rewrite (readAll_unfold br), Gc, Gl, Gs, Gg, Gp.
    pose proof (readRecord_rowsRead br unmarshalWork_zero Counters_zero) as Hr.
    destruct (readRecord br unmarshalWork_zero Counters_zero)
      as [[|err|u br'] d]; simpl in *.
    + tally; f_equal; lia.
    + tally; f_equal; lia.
    + destruct (readAll br') as [[l ret] d']. destruct u as [a nb bb k]; simpl.
      tally_rw. rewrite !map_app. cbn [map bufsOf metricNameBuf blockBuf].
      rewrite (decodes_bufs t (tr_ uw) a nb bb (block uw) k).
      rewrite (rowsOf_bufs t (tr_ uw) a nb bb (block uw) k).
      tally; f_equal; lia.
  - unfold finish, inFlight; simpl. destruct (readAll br) as [[l ret] d].
    rewrite <- !app_assoc. tally; f_equal; lia.
  - reflexivity.
  - reflexivity.
  - unfold finish, inFlight; simpl. destruct (ahead m) as [[l ret] d].
    tally; f_equal; lia.
  - unfold finish, inFlight; simpl. destruct (ahead m) as [[l ret] d].
    destruct (processWork_effect t uw e) as (A & B & C & D & E & F & S & G & H).
    rewrite A, B, C, D, E, F, S, H.
    tally; f_equal; lia.
  - unfold finish, inFlight; simpl. destruct (ahead m) as [[l ret] d].
    tally; f_equal; lia.
Qed.

(** ** The invariant *)

Lemma live_app (ws1 ws2 : list workerPhase) :
  live (ws1 ++ ws2) = live ws1 + live ws2.
Proof. unfold live. now rewrite filter_app, length_app. Qed.

Lemma live_cons (w : workerPhase) (ws : list workerPhase) :
  live (w :: ws) = match w with WExit => 0 | _ => 1 end + live ws.
Proof. unfold live; simpl. now destruct w. Qed.

Lemma live_le (ws : list workerPhase) : live ws <= length ws.
Proof. apply filter_length_le. Qed.

Lemma live_repeat (n : nat) : live (repeat WRecv n) = n.
Proof.
  induction n as [|n IH]; [reflexivity|].
  simpl repeat. rewrite live_cons, IH. reflexivity.
Qed.

Lemma live_zero (ws : list workerPhase) :
  live ws = 0 -> Forall (fun w => w = WExit) ws.
Proof.
  induction ws as [|w ws IH]; [constructor|].
  rewrite live_cons. destruct w; try discriminate.
  intros H. constructor; auto.
Qed.

Lemma live_pick (ws : list workerPhase) :
  0 < live ws ->
  exists ws1 w ws2, ws = ws1 ++ w :: ws2 /\ w <> WExit.
Proof.
  induction ws as [|w ws IH]; [unfold live; simpl; lia|].
  rewrite live_cons. destruct w.
  - intros _. exists [], WRecv, ws. split; [reflexivity|discriminate].
  - intros _. exists [], (WBusy uw), ws. split; [reflexivity|discriminate].
  - intros H. destruct IH as (ws1 & w & ws2 & -> & Hw); [simpl in H; lia|].
    exists (WExit :: ws1), w, ws2. split; [reflexivity|assumption].
Qed.

Ltac live_norm :=
  repeat rewrite ?live_app, ?live_cons, ?length_app in *; cbn [length] in *.

Lemma step_Inv (s s' : sys) : Inv s -> step s s' -> Inv s'.
Proof.
  intros [W G O Z P] H.
  destruct H as [br q cl ws n t e uw e1 o c _ _ | uw br q cl ws n t e L
                | ret q cl ws n t e | ret q cl ws t e
                | m uw q cl ws1 ws2 n t e | m uw q cl ws1 ws2 n t e
                | m ws1 ws2 n t e];
    unfold phaseOk in *; simpl in *.
  all: constructor; unfold phaseOk; simpl; live_norm; auto;
    try (intros; discriminate); try lia.
  - now destruct o.
  - intros H. specialize (O P). lia.
  - intros H. specialize (Z H). discriminate.
  - destruct m; try discriminate; auto. destruct P as [_ P]. lia.
Qed.

Lemma steps_Inv (s s' : sys) : Inv s -> steps s s' -> Inv s'.
Proof. induction 2; eauto using step_Inv. Qed.

Lemma steps_finish (s s' : sys) : steps s s' -> finish s' = finish s.
Proof. induction 1; [reflexivity|]. erewrite step_finish; eauto. Qed.

Lemma steps_tr (s s' : sys) : steps s s' -> tr s' = tr s.
Proof. induction 1; [reflexivity|]. erewrite step_tr; eauto. Qed.

Lemma steps_trans (s1 s2 s3 : sys) : steps s1 s2 -> steps s2 s3 -> steps s1 s3.
Proof. induction 2; eauto using steps. Qed.

Lemma steps_one (s1 s2 : sys) : step s1 s2 -> steps s1 s2.
Proof. eauto using steps. Qed.

(** ** Progress and termination *)

Lemma step_weight (s s' : sys) : step s s' -> weight s' < weight s.
Proof.
  destruct 1 as [br q cl ws n t e uw e1 o c _ R | uw br q cl ws n t e L
                | ret q cl ws n t e | ret q cl ws t e
                | m uw q cl ws1 ws2 n t e | m uw q cl ws1 ws2 n t e
                | m ws1 ws2 n t e];
    unfold weight; simpl;
    rewrite ?map_app, ?list_sum_app, ?length_app; simpl; try lia.
  destruct o as [|err|u br']; simpl; try lia.
  assert (length (avail br') + 8 <= length (avail br))
    by (eapply readRecord_shrinks; rewrite R; reflexivity).
  lia.
Qed.

Lemma progress (s : sys) :
  Inv s -> (forall ret, main s <> MDone ret) -> exists s', step s s'.
Proof.
  intros [W G O Z P] ND.
  destruct s as [m q cl ws n t e]; unfold phaseOk in *; simpl in *.
  destruct m as [br|uw br|ret|ret|ret].
  - destruct (readRecord br unmarshalWork_zero
                (cnt (mkEnv (cnt e) (pool e) (calls e) (sends e) (S (gets e)) (puts e))))
      as [o c] eqn:R.
    eexists. eapply step_read; [apply get_new|exact R].
  - destruct (Nat.lt_ge_cases (length q) (8 * Pos.to_nat gomaxprocs)) as [L|L].
    + eexists. now apply step_send.
    + specialize (O P).
      destruct (live_pick ws) as (ws1 & w & ws2 & -> & Hw); [lia|].
      destruct q as [|u q]; [simpl in L; lia|].
      destruct w as [|u'|]; [| |congruence]; eexists;
        [apply step_recv | apply step_work].
  - eexists. apply step_close.
  - destruct n as [|n].
    + eexists. apply step_wait.
    + destruct (live_pick ws) as (ws1 & w & ws2 & -> & Hw); [lia|].
      subst cl.
      destruct w as [|u'|]; [| |congruence].
      * destruct q as [|u q]; eexists; [apply step_exit | apply step_recv].
      * eexists. apply step_work.
  - now destruct (ND ret).
Qed.

Lemma terminates (s : sys) :
  Inv s -> exists s' ret, steps s s' /\ main s' = MDone ret.
Proof.
  remember (weight s) as k eqn:K. revert s K.
  induction k as [k IH] using lt_wf_ind. intros s K I.
  destruct (main s) as [br|uw br|ret|ret|ret] eqn:M.
  5: { exists s, ret. split; [constructor|assumption]. }
  all: destruct (progress s I) as [s1 S1]; [intros r; rewrite M; discriminate|];
       destruct (IH (weight s1)) with (s := s1) as (s' & ret' & R & D);
       [subst k; now apply step_weight | reflexivity | eapply step_Inv; eauto |];
       exists s', ret'; split; [|assumption];
       eapply steps_trans; [apply steps_one; eassumption|assumption].
Qed.

(** ** Finished calls *)

Lemma early_stuck (err : error) (e : Env) (s : sys) :
  steps (earlyReturn err e) s -> s = earlyReturn err e.
Proof.
  intros R. remember (earlyReturn err e) as s0 eqn:E.
  induction R as [|s1 s2 s3 _ IH H]; [reflexivity|].
  specialize (IH E). subst s1 s2. unfold earlyReturn in H. inversion H;
    match goal with
    | E : _ ++ _ :: _ = [] |- _ =>
        symmetry in E; now destruct (app_cons_not_nil _ _ _ E)
    end.
Qed.

Lemma started_Inv (br : Reader) (t : TimeRange) (e : Env) : Inv (started br t e).
Proof.
  constructor; unfold started, phaseOk; simpl;
    rewrite ?live_repeat, ?repeat_length; auto; lia.
Qed.

Lemma held_gone (ws : list workerPhase) :
  Forall (fun w => w = WExit) ws -> flat_map held ws = [].
Proof. induction 1 as [|w ws -> _ IH]; simpl; auto. Qed.

Lemma held_waiting (n : nat) : flat_map held (repeat WRecv n) = [].
Proof. induction n; simpl; auto. Qed.

Lemma done_quiet (s : sys) (ret : option error) :
  Inv s -> main s = MDone ret ->
  chClosed s = true /\ wg s = 0 /\ workCh s = [] /\
  Forall (fun w => w = WExit) (workers s) /\
  length (workers s) = Pos.to_nat gomaxprocs /\ inFlight s = [].
Proof.
  intros [W G O Z P] M. unfold phaseOk in P. rewrite M in P.
  destruct P as [Pc Pw].
  assert (L : live (workers s) = 0) by congruence.
  assert (Q : workCh s = []) by (apply Z; lia).
  assert (F : Forall (fun w => w = WExit) (workers s)) by now apply live_zero.
  repeat split; auto.
  unfold inFlight. rewrite held_gone, Q, M by assumption. reflexivity.
Qed.

Lemma finish_done (s : sys) (ret : option error) :
  main s = MDone ret -> inFlight s = [] -> finish s = observed ret (env s).
Proof.
  intros M Q. unfold finish, observed. rewrite M, Q; simpl.
  rewrite !N.add_0_r, !Nat.add_0_r, app_nil_r. reflexivity.
Qed.

Lemma run_observed (br : Reader) (t : TimeRange) (e : Env) (s : sys)
    (ret : option error) :
  steps (started br t e) s -> main s = MDone ret ->
  observed ret (env s) = finish (started br t e) /\ tr s = t.
Proof.
  intros R M.
  assert (I : Inv s) by (eapply steps_Inv; [apply started_Inv|exact R]).
  destruct (done_quiet s ret I M) as (_ & _ & _ & _ & _ & Q).
  rewrite <- (finish_done s ret M Q). split.
  - now apply steps_finish.
  - now apply (steps_tr _ _ R).
Qed.

Lemma finish_started (br : Reader) (t : TimeRange) (e : Env) :
  finish (started br t e) =
  mkSummary (returned br)
    (readCalls (cnt e) + readCalls (counted br))
    (readErrors (cnt e) + readErrors (counted br))
    (rowsRead (cnt e) + N.of_nat (rowsKept t (sent br)))
    (blocksRead (cnt e) + blocksRead (counted br))
    (parseErrors (cnt e) + parseErrors (counted br)
     + N.of_nat (undecoded t (sent br)))
    (length (calls e) + decoded t (sent br))
    (map bufsOf (sends e ++ sent br))
    (gets e + S (length (sent br)))
    (puts e + length (sent br)).
Proof.
  unfold finish, started, inFlight, returned, counted, sent; simpl.
  rewrite held_waiting. unfold sent. simpl.
  destruct (readAll br) as [[l ret] d]. reflexivity.
Qed.

(** How a call starts: it returns early, or enters the loop. *)
Lemma start_cases (req : Request) (e : Env) :
  (bodyReader req = None /\ ParseStream_start req e = earlyReturn ErrGzip e) \/
  (exists br0 err,
     bodyReader req = Some br0 /\ ReadFull br0 16 = Err err /\
     ParseStream_start req e =
     earlyReturn (ErrReadTimeRange err) (withCnt (readErrors_Inc (cnt e)) e)) \/
  (exists br0 trBuf br,
     bodyReader req = Some br0 /\ ReadFull br0 16 = Ok (trBuf, br) /\
     ParseStream_start req e = started br (headerRange trBuf) e).
Proof.
  unfold ParseStream_start.
  destruct (bodyReader req) as [br0|]; [|now left].
  right. destruct (ReadFull br0 16) as [[trBuf br]|err] eqn:E.
  - right. now exists br0, trBuf, br.
  - left. now exists br0, err.
Qed.

Lemma ParseStream_returns (req : Request) (e : Env) :
  exists ret s, ParseStream req e ret s.
Proof.
  destruct (start_cases req e) as [[_ E]|[(br0 & err & _ & _ & E)|(br0 & b & br & _ & _ & E)]].
  - eexists _, _. split; [apply steps_refl|]. rewrite E. reflexivity.
  - eexists _, _. split; [apply steps_refl|]. rewrite E. reflexivity.
  - destruct (terminates _ (started_Inv br (headerRange b) e)) as (s & ret & R & M).
    exists ret, s. split; [rewrite E|]; assumption.
Qed.

Lemma header_read (hdr rest : list byte) (b : bool) :
  length hdr = 16 ->
  ReadFull (mkReader (hdr ++ rest) b) 16 = Ok (hdr, mkReader rest b).
Proof. intros <-. apply ReadFull_app. Qed.

(** A call whose header is [hdr] and whose body goes on as [br]. *)
Lemma entered_observed (req : Request) (e : Env) (hdr rest : list byte)
    (b : bool) (ret : option error) (s : sys) :
  bodyReader req = Some (mkReader (hdr ++ rest) b) -> length hdr = 16 ->
  ParseStream req e ret s ->
  observed ret (env s) = finish (started (mkReader rest b) (headerRange hdr) e)
  /\ tr s = headerRange hdr /\ Inv s.
Proof.
  intros B L [R M]. unfold ParseStream_start in R.
  rewrite B, (header_read hdr rest b L) in R.
  destruct (run_observed _ _ _ _ _ R M) as [O T].
  split; [exact O|]. split; [exact T|].
  eapply steps_Inv; [apply started_Inv|exact R].
Qed.

Lemma entered_returnsOnly (req : Request) (e : Env) (hdr rest : list byte)
    (b : bool) :
  bodyReader req = Some (mkReader (hdr ++ rest) b) -> length hdr = 16 ->
  returnsOnly req e (returned (mkReader rest b)).
Proof.
  intros B L. split.
  - destruct (ParseStream_returns req e) as (ret & s & P).
    destruct (entered_observed _ _ _ _ _ _ _ B L P) as (O & _).
    rewrite finish_started in O. apply (f_equal sRet) in O. simpl in O.
    subst ret. now exists s.
  - intros ret s P.
    destruct (entered_observed _ _ _ _ _ _ _ B L P) as (O & _).
    rewrite finish_started in O. now apply (f_equal sRet) in O.
Qed.

(** ** The reader on framed streams *)

Lemma ReadFull_exact (pre rest : list byte) (b : bool) (n : nat) :
  length pre = n ->
  ReadFull (mkReader (pre ++ rest) b) n = Ok (pre, mkReader rest b).
Proof. intros <-. apply ReadFull_app. Qed.

Lemma framed_guard (sz p : list byte) :
  framed sz p ->
  (maxBufSize <? UnmarshalUint32 sz)%N = false /\
  N.to_nat (UnmarshalUint32 sz) = length p.
Proof.
  intros (_ & E & L). rewrite E. split.
  - now apply N.ltb_ge.
  - apply Nat2N.id.
Qed.

Lemma readRecord_wire (r : wireRecord) (rest : list byte) (b : bool)
    (uw : unmarshalWork) (c : Counters) :
  wellFramed r ->
  readRecord (mkReader (wire r ++ rest) b) uw c =
  (RecOk (mkWork (tr_ uw) (nameBytes r) (blockBytes r) (block uw))
         (mkReader rest b),
   blocksRead_Inc
     (readCalls_Inc (readCalls_Inc (readCalls_Inc (readCalls_Inc c))))).
Proof.
  intros [Fn Fb]. unfold readRecord, wire. rewrite <- !app_assoc.
  rewrite (ReadFull_exact _ _ _ 4) by apply Fn.
  destruct (framed_guard _ _ Fn) as [Gn Ln]. rewrite Gn, Ln.
  rewrite (ReadFull_exact _ _ _ _ eq_refl).
  rewrite (ReadFull_exact _ _ _ 4) by apply Fb.
  destruct (framed_guard _ _ Fb) as [Gb Lb]. rewrite Gb, Lb.
  rewrite (ReadFull_exact _ _ _ _ eq_refl). reflexivity.
Qed.

Lemma readAll_wire (rs : list wireRecord) (rest : list byte) (b : bool) :
  Forall wellFramed rs ->
  sent (mkReader (wireAll rs ++ rest) b)
    = map workOf rs ++ sent (mkReader rest b) /\
  returned (mkReader (wireAll rs ++ rest) b) = returned (mkReader rest b) /\
  readErrors (counted (mkReader (wireAll rs ++ rest) b))
    = readErrors (counted (mkReader rest b)) /\
  parseErrors (counted (mkReader (wireAll rs ++ rest) b))
    = parseErrors (counted (mkReader rest b)) /\
  blocksRead (counted (mkReader (wireAll rs ++ rest) b))
    = (N.of_nat (length rs) + blocksRead (counted (mkReader rest b)))%N /\
  readCalls (counted (mkReader (wireAll rs ++ rest) b))
    = (4 * N.of_nat (length rs) + readCalls (counted (mkReader rest b)))%N.
Proof.
  induction 1 as [|r rs Hr _ IH]; [simpl; repeat split; lia|].
  destruct IH as (I1 & I2 & I3 & I4 & I5 & I6).
  unfold sent, returned, counted in *.
  cbn [wireAll flat_map]. rewrite <- app_assoc.
  rewrite readAll_unfold, (readRecord_wire _ _ _ _ _ Hr). fold (wireAll rs).
  destruct (readAll (mkReader (wireAll rs ++ rest) b)) as [[l ret] d].
  cbn [fst snd] in *. subst l ret.
  unfold Counters_add, blocksRead_Inc, readCalls_Inc, Counters_zero.
  cbn [fst snd map app length readCalls readErrors parseErrors blocksRead].
  rewrite I3, I4, I5, I6. unfold workOf at 2, unmarshalWork_zero.
  cbn [tr_ block]. repeat split; lia.
Qed.

Lemma readAll_end : readAll (mkReader [] false) = ([], None, Counters_zero).
Proof. reflexivity. Qed.

Lemma readAll_tooBigName (sz rest : list byte) (b : bool) :
  length sz = 4 -> (maxBufSize < UnmarshalUint32 sz)%N ->
  readAll (mkReader (sz ++ rest) b) =
  ([], Some (ErrTooBigMetricNameSize (UnmarshalUint32 sz)),
   parseErrors_Inc (readCalls_Inc Counters_zero)).
Proof.
  intros L G. rewrite readAll_unfold. unfold readRecord.
  rewrite (ReadFull_exact _ _ _ _ L).
  apply N.ltb_lt in G. rewrite G. reflexivity.
Qed.

Lemma readAll_tooBigBlock (sz nm sz2 rest : list byte) (b : bool) :
  framed sz nm -> length sz2 = 4 -> (maxBufSize < UnmarshalUint32 sz2)%N ->
  readAll (mkReader (sz ++ nm ++ sz2 ++ rest) b) =
  ([], Some (ErrTooBigBlockSize (UnmarshalUint32 sz2)),
   parseErrors_Inc (readCalls_Inc (readCalls_Inc (readCalls_Inc Counters_zero)))).
Proof.
  intros Fn L G. rewrite readAll_unfold. unfold readRecord.
  rewrite (ReadFull_exact _ _ _ 4) by apply Fn.
  destruct (framed_guard _ _ Fn) as [Gn Ln]. rewrite Gn, Ln.
  rewrite (ReadFull_exact _ _ _ _ eq_refl).
  rewrite (ReadFull_exact _ _ _ _ L).
  apply N.ltb_lt in G. rewrite G. reflexivity.
Qed.

Lemma readAll_truncated (l : list byte) :
  truncated l ->
  exists err,
    isStreamReadError err = true /\
    sent (mkReader l false) = [] /\
    returned (mkReader l false) = Some err /\
    readErrors (counted (mkReader l false)) = 1%N /\
    parseErrors (counted (mkReader l false)) = 0%N.
Proof.
  unfold sent, returned, counted.
  destruct 1 as [l L | sz p L G S | sz nm q Fn S | sz nm sz2 p Fn L G S];
    rewrite readAll_unfold; unfold readRecord.
  - rewrite ReadFull_short by lia.
    destruct l; [simpl in L; lia|]. eexists; simpl; repeat split; reflexivity.
  - rewrite (ReadFull_exact _ _ _ _ L).
    apply N.ltb_ge in G. rewrite G.
    rewrite ReadFull_short by lia. eexists; simpl; repeat split; reflexivity.
  - rewrite (ReadFull_exact _ _ _ 4) by apply Fn.
    destruct (framed_guard _ _ Fn) as [Gn Ln]. rewrite Gn, Ln.
    rewrite (ReadFull_exact _ _ _ _ eq_refl).
    rewrite ReadFull_short by lia. eexists; simpl; repeat split; reflexivity.
  - rewrite (ReadFull_exact _ _ _ 4) by apply Fn.
    destruct (framed_guard _ _ Fn) as [Gn Ln]. rewrite Gn, Ln.
    rewrite (ReadFull_exact _ _ _ _ eq_refl).
    rewrite (ReadFull_exact _ _ _ _ L).
    apply N.ltb_ge in G. rewrite G.
    rewrite ReadFull_short by lia. eexists; simpl; repeat split; reflexivity.
Qed.

(** What the reader adds to the two error counters shows in what it
    returns. *)
Lemma readRecord_errors (br : Reader) (uw : unmarshalWork) :
  let '(o, d) := readRecord br uw Counters_zero in
  match o with
  | RecErr err =>
      readErrors d = (if isStreamReadError err then 1 else 0)%N /\
      parseErrors d = (if isProtocolLimitError err then 1 else 0)%N
  | _ => readErrors d = 0%N /\ parseErrors d = 0%N
  end.
Proof.
  unfold readRecord.
  destruct (ReadFull br 4) as [[sz1 br1]|[]]; simpl; auto.
  destruct (maxBufSize <? UnmarshalUint32 sz1)%N; simpl; auto.
  destruct (ReadFull br1 _) as [[nm br2]|e2]; simpl; auto.
  destruct (ReadFull br2 4) as [[sz2 br3]|e3]; simpl; auto.
  destruct (maxBufSize <? UnmarshalUint32 sz2)%N; simpl; auto.
  destruct (ReadFull br3 _) as [[bl br4]|e4]; simpl; auto.
Qed.

Lemma readLoop_errors (fuel : nat) (br : Reader) :
  let '(_, ret, d) := readLoop fuel br in
  readErrors d =
    match ret with
    | Some err => if isStreamReadError err then 1 else 0
    | None => 0
    end%N /\
  parseErrors d =
    match ret with
    | Some err => if isProtocolLimitError err then 1 else 0
    | None => 0
    end%N.
Proof.
  revert br. induction fuel as [|fuel IH]; intros br; simpl; auto.
  pose proof (readRecord_errors br unmarshalWork_zero) as H.
  destruct (readRecord br unmarshalWork_zero Counters_zero) as [[|err|u br'] d];
    simpl; auto.
  specialize (IH br'). destruct (readLoop fuel br') as [[l ret] d'].
  simpl. destruct H as [-> ->], IH as [-> ->]. auto.
Qed.

Lemma counted_errors (br : Reader) :
  readErrors (counted br) =
    match returned br with
    | Some err => if isStreamReadError err then 1 else 0
    | None => 0
    end%N /\
  parseErrors (counted br) =
    match returned br with
    | Some err => if isProtocolLimitError err then 1 else 0
    | None => 0
    end%N.
Proof.
  unfold counted, returned, readAll.
  pose proof (readLoop_errors (S (length (avail br))) br) as H.
  destruct (readLoop (S (length (avail br))) br) as [[l ret] d]. exact H.
Qed.

(** ** Calls on framed streams *)

Lemma framed_stream (req : Request) (e : Env) (hdr : list byte)
    (rs : list wireRecord) (tail : list byte) (b : bool) :
  bodyReader req = Some (mkReader (hdr ++ wireAll rs ++ tail) b) ->
  length hdr = 16 -> Forall wellFramed rs ->
  returnsOnly req e (returned (mkReader tail b)) /\
  forall ret s, ParseStream req e ret s ->
    let t := headerRange hdr in
    let todo := map workOf rs ++ sent (mkReader tail b) in
    let d := counted (mkReader tail b) in
    tr s = t /\
    length (calls (env s)) = length (calls e) + decoded t todo /\
    parseErrors (cnt (env s))
      = (parseErrors (cnt e) + parseErrors d + N.of_nat (undecoded t todo))%N /\
    readErrors (cnt (env s)) = (readErrors (cnt e) + readErrors d)%N /\
    blocksRead (cnt (env s))
      = (blocksRead (cnt e) + N.of_nat (length rs) + blocksRead d)%N /\
    rowsRead (cnt (env s)) = (rowsRead (cnt e) + N.of_nat (rowsKept t todo))%N /\
    gets (env s) = gets e + S (length todo) /\
    puts (env s) = puts e + length todo /\
    map bufsOf (sends (env s))
      = map bufsOf (sends e) ++ map payloads rs
        ++ map bufsOf (sent (mkReader tail b)).
Proof.
  intros B L F.
  destruct (readAll_wire rs tail b F) as (W1 & W2 & W3 & W4 & W5 & W6).
  split.
  - rewrite <- W2. now apply entered_returnsOnly with (hdr := hdr).
  - intros ret s P.
    destruct (entered_observed req e hdr _ b ret s B L P) as (O & T & _).
    rewrite finish_started, W1, W3, W4, W5 in O.
    unfold observed in O. inversion O as [[Or O1 O2 O3 O4 O5 O6 O7 O8 O9]].
    rewrite O7, !map_app, map_map. repeat split; auto; lia.
Qed.

(** ** The end of the stream *)

(** C1. On a stream made of the header and whole records, a clean end right
    where the next record would start makes ParseStream return nil; a clean
    end anywhere inside a record (within the first size, within the metric
    name, at or within the second size, within the block data) makes it
    return one of the errors that wrap a failed read. *)
Theorem C1_end_of_stream_policy (req : Request) (e : Env) (hdr : list byte)
    (rs : list wireRecord) (tail : list byte) :
  bodyReader req = Some (mkReader (hdr ++ wireAll rs ++ tail) false) ->
  length hdr = 16 -> Forall wellFramed rs ->
  (tail = [] -> returnsOnly req e None) /\
  (truncated tail ->
   exists err, isStreamReadError err = true /\ returnsOnly req e (Some err)).
Proof.
  intros B L F.
  destruct (framed_stream req e hdr rs tail false B L F) as [R _].
  split.
  - intros ->. exact R.
  - intros T. destruct (readAll_truncated tail T) as (err & S & _ & E & _).
    exists err. split; [exact S|]. now rewrite <- E.
Qed.

(** ** The size limit *)

(** C2. After any number of whole records, a metric-name size or a
    block-data size above 1048576 makes the loop body end in the size error
    without reaching the send, whatever follows in the stream; ParseStream
    returns that error, and the items sent on the channel, the blocks read,
    the items put back and the callback invocations are those of the records
    before. A record whose declared size is exactly 1048576 is read and
    sent. *)
Theorem C2_size_limit (req : Request) (e : Env) (hdr : list byte)
    (rs : list wireRecord) (tail : list byte) (b : bool) :
  bodyReader req = Some (mkReader (hdr ++ wireAll rs ++ tail) b) ->
  length hdr = 16 -> Forall wellFramed rs ->
  (forall sz rest,
     tail = sz ++ rest -> length sz = 4 ->
     (maxBufSize < UnmarshalUint32 sz)%N ->
     (forall uw c,
        fst (readRecord (mkReader tail b) uw c)
        = RecErr (ErrTooBigMetricNameSize (UnmarshalUint32 sz))) /\
     isProtocolLimitError (ErrTooBigMetricNameSize (UnmarshalUint32 sz)) = true /\
     returnsOnly req e (Some (ErrTooBigMetricNameSize (UnmarshalUint32 sz))) /\
     forall ret s, ParseStream req e ret s ->
       map bufsOf (sends (env s)) = map bufsOf (sends e) ++ map payloads rs /\
       blocksRead (cnt (env s)) = (blocksRead (cnt e) + N.of_nat (length rs))%N /\
       puts (env s) = puts e + length rs /\
       length (calls (env s))
       = length (calls e) + decoded (headerRange hdr) (map workOf rs)) /\
  (forall sz nm sz2 rest,
     tail = sz ++ nm ++ sz2 ++ rest -> framed sz nm -> length sz2 = 4 ->
     (maxBufSize < UnmarshalUint32 sz2)%N ->
     (forall uw c,
        fst (readRecord (mkReader tail b) uw c)
        = RecErr (ErrTooBigBlockSize (UnmarshalUint32 sz2))) /\
     isProtocolLimitError (ErrTooBigBlockSize (UnmarshalUint32 sz2)) = true /\
     returnsOnly req e (Some (ErrTooBigBlockSize (UnmarshalUint32 sz2))) /\
     forall ret s, ParseStream req e ret s ->
       map bufsOf (sends (env s)) = map bufsOf (sends e) ++ map payloads rs /\
       blocksRead (cnt (env s)) = (blocksRead (cnt e) + N.of_nat (length rs))%N /\
       puts (env s) = puts e + length rs /\
       length (calls (env s))
       = length (calls e) + decoded (headerRange hdr) (map workOf rs)) /\
  (forall r rest,
     tail = wire r ++ rest -> wellFramed r ->
     UnmarshalUint32 (nameSize r) = maxBufSize \/
     UnmarshalUint32 (blockSize r) = maxBufSize ->
     forall uw c,
       fst (readRecord (mkReader tail b) uw c)
       = RecOk (mkWork (tr_ uw) (nameBytes r) (blockBytes r) (block uw))
               (mkReader rest b)).
Proof.
  intros B L F.
  destruct (framed_stream req e hdr rs tail b B L F) as [R A].
  split; [|split].
  - intros sz rest -> Ls G.
    pose proof (readAll_tooBigName sz rest b Ls G) as E.
    unfold returned in R. unfold sent, counted in A. rewrite E in R, A.
    split; [|split; [reflexivity|split; [exact R|]]].
    + intros uw c. unfold readRecord. rewrite (ReadFull_exact _ _ _ _ Ls).
      apply N.ltb_lt in G. now rewrite G.
    + intros ret s P.
      destruct (A ret s P) as (_ & Ac & _ & _ & Ab & _ & _ & Ap & As).
      cbn [fst snd map] in *. rewrite !app_nil_r, length_map in *.
      simpl in Ab. repeat split; auto; lia.
  - intros sz nm sz2 rest -> Fn Ls G.
    pose proof (readAll_tooBigBlock sz nm sz2 rest b Fn Ls G) as E.
    unfold returned in R. unfold sent, counted in A. rewrite E in R, A.
    split; [|split; [reflexivity|split; [exact R|]]].
    + intros uw c. unfold readRecord.
      rewrite (ReadFull_exact _ _ _ 4) by apply Fn.
      destruct (framed_guard _ _ Fn) as [Gn Ln]. rewrite Gn, Ln.
      rewrite (ReadFull_exact _ _ _ _ eq_refl).
      rewrite (ReadFull_exact _ _ _ _ Ls).
      apply N.ltb_lt in G. now rewrite G.
    + intros ret s P.
      destruct (A ret s P) as (_ & Ac & _ & _ & Ab & _ & _ & Ap & As).
      cbn [fst snd map] in *. rewrite !app_nil_r, length_map in *.
      simpl in Ab. repeat split; auto; lia.
  - intros r rest -> Fr _ uw c. now rewrite (readRecord_wire r rest b uw c Fr).
Qed.

(** ** Any call at all *)

Lemma ParseStream_counts (req : Request) (e : Env) (ret : option error) (s : sys) :
  ParseStream req e ret s ->
  readErrors (cnt (env s)) =
    (readErrors (cnt e) +
     match ret with
     | Some err => if isStreamReadError err then 1 else 0
     | None => 0
     end)%N /\
  parseErrors (cnt (env s)) =
    (parseErrors (cnt e) +
     match ret with
     | Some err => if isProtocolLimitError err then 1 else 0
     | None => 0
     end + N.of_nat (undecoded (tr s) (sentBy req)))%N /\
  length (calls (env s)) = length (calls e) + decoded (tr s) (sentBy req) /\
  puts (env s) = puts e + length (sentBy req) /\
  gets (env s) = gets e + match main (ParseStream_start req e) with
                          | MLoop _ => S (length (sentBy req))
                          | _ => 0
                          end /\
  map bufsOf (sends (env s)) = map bufsOf (sends e ++ sentBy req).
Proof.
  intros [R M]. unfold sentBy.
  destruct (start_cases req e)
    as [[B E]|[(br0 & err & B & H & E)|(br0 & hdr & br & B & H & E)]];
    rewrite E in *; rewrite B; try rewrite H.
  - apply early_stuck in R. subst s. inversion M; subst ret. simpl.
    rewrite decoded_nil, app_nil_r. repeat split; lia.
  - apply early_stuck in R. subst s. inversion M; subst ret. simpl.
    rewrite decoded_nil, app_nil_r. repeat split; lia.
  - destruct (run_observed _ _ _ _ _ R M) as [O T].
    rewrite finish_started in O. unfold observed in O. inversion O.
    destruct (counted_errors br) as [Ce Cp]. rewrite T. simpl.
    repeat split; auto; lia.
Qed.

(** ** The header *)

(** C7. With fewer than 16 bytes to read, an empty stream included,
    ParseStream returns the time-range read error, counts one read error and
    never starts a worker or reads a frame. With 16 bytes or more, the loop
    starts right after the sixteenth byte, and in every state of the call
    the time range is the one decoded from the header, the minimum at
    offset 0 and the maximum at offset 8. *)
Theorem C7_time_range_header (req : Request) (e : Env) (br0 : Reader) :
  bodyReader req = Some br0 ->
  (length (avail br0) < 16 ->
   let err := ErrReadTimeRange
                (if broken br0 then ErrTransport
                 else match avail br0 with
                      | [] => EOF
                      | _ :: _ => ErrUnexpectedEOF
                      end) in
   isStreamReadError err = true /\
   returnsOnly req e (Some err) /\
   forall ret s, ParseStream req e ret s ->
     s = earlyReturn err (withCnt (readErrors_Inc (cnt e)) e)) /\
  (forall hdr rest,
     avail br0 = hdr ++ rest -> length hdr = 16 ->
     main (ParseStream_start req e) = MLoop (mkReader rest (broken br0)) /\
     forall s, steps (ParseStream_start req e) s ->
       tr s = mkTimeRange (UnmarshalInt64 hdr) (UnmarshalInt64 (skipn 8 hdr))).
Proof.
  intros B. split.
  - intros L err.
    assert (E : ParseStream_start req e
                = earlyReturn err (withCnt (readErrors_Inc (cnt e)) e)).
    { unfold ParseStream_start. rewrite B.
      destruct br0 as [l b]. simpl in L. now rewrite (ReadFull_short l b 16 L). }
    assert (A : forall ret s, ParseStream req e ret s ->
                s = earlyReturn err (withCnt (readErrors_Inc (cnt e)) e)).
    { intros ret s [R _]. rewrite E in R. now apply early_stuck in R. }
    split; [reflexivity|]. split; [split|exact A].
    + eexists. split; [apply steps_refl|]. rewrite E. reflexivity.
    + intros ret s P. pose proof (A ret s P) as ->.
      destruct P as [_ M]. simpl in M. congruence.
  - intros hdr rest A L. destruct br0 as [l b]. simpl in A. subst l.
    unfold ParseStream_start. rewrite B, (header_read hdr rest b L).
    split; [reflexivity|]. intros s R. now rewrite (steps_tr _ _ R).
Qed.

(** ** Empty frames *)

(** C9. A record with a size of 0 in either frame is read like any other:
    the payload is empty, the loop body reaches the send with the item
    filled, and a stream of such records is read to its end without a read
    error, every record counted as a block read and handed on. *)
Theorem C9_zero_length_frames (req : Request) (e : Env) (hdr : list byte)
    (rs : list wireRecord) :
  bodyReader req = Some (mkReader (hdr ++ wireAll rs) false) ->
  length hdr = 16 -> Forall wellFramed rs ->
  Forall (fun r => UnmarshalUint32 (nameSize r) = 0%N \/
                   UnmarshalUint32 (blockSize r) = 0%N) rs ->
  (forall r, In r rs ->
     (UnmarshalUint32 (nameSize r) = 0%N -> nameBytes r = []) /\
     (UnmarshalUint32 (blockSize r) = 0%N -> blockBytes r = []) /\
     forall rest b uw c,
       afterRecord (fst (readRecord (mkReader (wire r ++ rest) b) uw c))
       = MSend (mkWork (tr_ uw) (nameBytes r) (blockBytes r) (block uw))
               (mkReader rest b)) /\
  returnsOnly req e None /\
  forall ret s, ParseStream req e ret s ->
    map bufsOf (sends (env s)) = map bufsOf (sends e) ++ map payloads rs /\
    readErrors (cnt (env s)) = readErrors (cnt e) /\
    blocksRead (cnt (env s)) = (blocksRead (cnt e) + N.of_nat (length rs))%N /\
    puts (env s) = puts e + length rs.
Proof.
  intros B L F Z. rewrite <- (app_nil_r (wireAll rs)) in B.
  destruct (framed_stream req e hdr rs [] false B L F) as [R A].
  split; [|split; [exact R|]].
  - intros r I. rewrite Forall_forall in F. destruct (F r I) as [Fn Fb].
    assert (N0 : forall sz p, framed sz p -> UnmarshalUint32 sz = 0%N -> p = []).
    { intros sz p (_ & E & _) H. rewrite H in E. destruct p; [reflexivity|].
      simpl in E. lia. }
    split; [now apply N0|]. split; [now apply N0|].
    intros rest b uw c. now rewrite (readRecord_wire r rest b uw c (conj Fn Fb)).
  - intros ret s P.
    destruct (A ret s P) as (_ & _ & _ & Ae & Ab & _ & _ & Ap & As).
    unfold sent, counted in *. rewrite readAll_end in *. simpl in Ae, Ab.
    cbn [fst snd map] in Ap, As. rewrite !app_nil_r, length_map in *.
    repeat split; auto; lia.
Qed.

(** ** Which counter a failure goes to *)

(** C10. When the loop body meets a size above 1048576 it adds one to
    parseErrors and nothing to readErrors, and returns. Over a whole call,
    readErrors grows by one exactly when the call returns an error that
    wraps a failed read, and parseErrors grows by one for a size error
    returned, on top of one per item that failed to decode. *)
Theorem C10_limit_counts_as_parse_error (req : Request) (e : Env) :
  (forall sz rest b uw c,
     length sz = 4 -> (maxBufSize < UnmarshalUint32 sz)%N ->
     readRecord (mkReader (sz ++ rest) b) uw c =
     (RecErr (ErrTooBigMetricNameSize (UnmarshalUint32 sz)),
      parseErrors_Inc (readCalls_Inc c))) /\
  (forall sz nm sz2 rest b uw c,
     framed sz nm -> length sz2 = 4 -> (maxBufSize < UnmarshalUint32 sz2)%N ->
     readRecord (mkReader (sz ++ nm ++ sz2 ++ rest) b) uw c =
     (RecErr (ErrTooBigBlockSize (UnmarshalUint32 sz2)),
      parseErrors_Inc (readCalls_Inc (readCalls_Inc (readCalls_Inc c))))) /\
  (exists ret s, ParseStream req e ret s) /\
  (forall ret s, ParseStream req e ret s ->
     readErrors (cnt (env s)) =
       (readErrors (cnt e) +
        match ret with
        | Some err => if isStreamReadError err then 1 else 0
        | None => 0
        end)%N /\
     parseErrors (cnt (env s)) =
       (parseErrors (cnt e) +
        match ret with
        | Some err => if isProtocolLimitError err then 1 else 0
        | None => 0
        end + N.of_nat (undecoded (tr s) (sentBy req)))%N).
Proof.
  split; [|split; [|split]].
  - intros sz rest b uw c L G. unfold readRecord.
    rewrite (ReadFull_exact _ _ _ _ L). apply N.ltb_lt in G. now rewrite G.
  - intros sz nm sz2 rest b uw c Fn L G. unfold readRecord.
    rewrite (ReadFull_exact _ _ _ 4) by apply Fn.
    destruct (framed_guard _ _ Fn) as [Gn Ln]. rewrite Gn, Ln.
    rewrite (ReadFull_exact _ _ _ _ eq_refl).
    rewrite (ReadFull_exact _ _ _ _ L). apply N.ltb_lt in G. now rewrite G.
  - apply ParseStream_returns.
  - intros ret s P.
    destruct (ParseStream_counts req e ret s P) as (A & B & _). now split.
Qed.

(** No schedule runs forever: the steps from any state are well founded. *)
Lemma every_run_ends (s : sys) : Acc (fun s2 s1 => step s1 s2) s.
Proof.
  remember (weight s) as k eqn:K. revert s K.
  induction k as [k IH] using lt_wf_ind. intros s K.
  constructor. intros s' H. apply (IH (weight s')); [|reflexivity].
  subst k. now apply step_weight.
Qed.

(** ** What reaches the callback, and what reaches the pool *)

Lemma kept_inRange (t : TimeRange) (rows : StorageBlock) :
  Forall (fun ts => (MinTimestamp t <= ts <= MaxTimestamp t)%Z)
         (map fst (filter (fun row => inTimeRange t (fst row)) rows)).
Proof.
  apply Forall_forall. intros ts H. apply in_map_iff in H.
  destruct H as (row & <- & H). apply filter_In in H. destruct H as [_ H].
  unfold inTimeRange in H. apply andb_true_iff in H. lia.
Qed.

Lemma unmarshal_inRange (uw uw' : unmarshalWork) (t : TimeRange) (c c' : Counters) :
  unmarshal uw t c = (Ok uw', c') -> blockInRange t (block uw').
Proof.
  unfold unmarshal.
  destruct (UnmarshalNoAccountIDProjectID (metricNameBuf uw)); [|discriminate].
  destruct (UnmarshalPortable (blockBuf uw)) as [[rows tl]|]; [|discriminate].
  destruct (0 <? length tl); [discriminate|].
  simpl. intros H. inversion H; subst. apply kept_inRange.
Qed.

Lemma processWork_calls (t : TimeRange) (uw : unmarshalWork) (e : Env) :
  exists new,
    calls (processWork t uw e) = calls e ++ new /\ Forall (blockInRange t) new.
Proof.
  unfold processWork.
  destruct (unmarshal uw t (cnt e)) as [[uw'|err] c'] eqn:E.
  - exists [block uw']. split.
    + now destruct (callback (calls e) (block uw')).
    + constructor; [|constructor]. eapply unmarshal_inRange; eassumption.
  - exists []. split; [simpl; now rewrite app_nil_r|constructor].
Qed.

Lemma step_calls (s s' : sys) :
  step s s' ->
  exists new,
    calls (env s') = calls (env s) ++ new /\ Forall (blockInRange (tr s)) new.
Proof.
  destruct 1 as [br q cl ws n t e uw e1 o c G R | | | | |
                 m uw q cl ws1 ws2 n t e | ]; simpl;
    try (exists []; split; [now rewrite app_nil_r|constructor]).
  - exists []. apply getUnmarshalWork_effect in G.
    destruct G as (_ & -> & _). split; [now rewrite app_nil_r|constructor].
  - apply processWork_calls.
Qed.

Lemma steps_calls (s s' : sys) :
  steps s s' ->
  exists new,
    calls (env s') = calls (env s) ++ new /\ Forall (blockInRange (tr s)) new.
Proof.
  induction 1 as [s|s1 s2 s3 R IH H].
  - exists []. split; [now rewrite app_nil_r|constructor].
  - destruct IH as (new1 & E1 & F1).
    destruct (step_calls _ _ H) as (new2 & E2 & F2).
    rewrite (steps_tr _ _ R) in F2.
    exists (new1 ++ new2). split.
    + now rewrite E2, E1, app_assoc.
    + apply Forall_app. now split.
Qed.

Lemma reset_isReset (uw : unmarshalWork) : isReset (reset uw).
Proof. reflexivity. Qed.

Lemma step_pool (s s' : sys) :
  step s s' ->
  Forall (fun uw => isReset uw \/ In uw (pool (env s))) (pool (env s')).
Proof.
  assert (K : forall l : list unmarshalWork,
             Forall (fun uw => isReset uw \/ In uw l) l)
    by (intros l; apply Forall_forall; auto).
  destruct 1 as [br q cl ws n t e uw e1 o c G R | | | | |
                 m uw q cl ws1 ws2 n t e | ]; simpl; auto.
  - destruct G as [|p1 v p2 E]; simpl; auto.
    rewrite E. apply Forall_forall. intros x H. right.
    apply in_app_or in H. apply in_or_app. simpl. tauto.
  - unfold processWork.
    destruct (unmarshal uw t (cnt e)) as [[uw'|err] c']; simpl.
    + destruct (callback (calls e) (block uw')); simpl;
        (constructor; [left; apply reset_isReset | apply Forall_forall; auto]).
    + constructor; [left; apply reset_isReset | apply Forall_forall; auto].
Qed.

Lemma steps_pool (s s' : sys) :
  steps s s' ->
  Forall (fun uw => isReset uw \/ In uw (pool (env s))) (pool (env s')).
Proof.
  induction 1 as [s|s1 s2 s3 R IH H].
  - apply Forall_forall; auto.
  - pose proof (step_pool _ _ H) as F. rewrite Forall_forall in *.
    intros x I. destruct (F x I) as [A|A]; auto.
Qed.

(** C5. Spec-modelled filter. Out-of-range rows never make [unmarshal]
    fail: it keeps exactly the rows whose timestamp lies between
    MinTimestamp and MaxTimestamp, both included, in their order, and adds
    only their number to rowsRead. In every state of a call, each block the
    callback has been handed holds only timestamps within the time range. *)
Theorem C5_time_range_filter (req : Request) (e : Env) :
  (forall uw t c mn rows,
     UnmarshalNoAccountIDProjectID (metricNameBuf uw) = Some mn ->
     UnmarshalPortable (blockBuf uw) = Some (rows, []) ->
     let kept := filter (fun row => inTimeRange t (fst row)) rows in
     unmarshal uw t c =
     (Ok (mkWork (tr_ uw) (metricNameBuf uw) (blockBuf uw)
                 (mkBlock mn (map snd kept) (map fst kept))),
      rowsRead_Add (length kept) c) /\
     forall row, In row kept <->
                 In row rows /\
                 (MinTimestamp t <= fst row <= MaxTimestamp t)%Z) /\
  (forall s, steps (ParseStream_start req e) s ->
     exists new,
       calls (env s) = calls e ++ new /\ Forall (blockInRange (tr s)) new).
Proof.
  split.
  - intros uw t c mn rows Hn Hb kept. split.
    + unfold unmarshal. rewrite Hn, Hb. simpl. fold kept.
      now rewrite length_map.
    + intros row. unfold kept. rewrite filter_In. unfold inTimeRange.
      rewrite andb_true_iff, !Z.leb_le. tauto.
  - intros s R. destruct (steps_calls _ _ R) as (new & E & F).
    exists new. rewrite (steps_tr _ _ R). split; [|exact F].
    rewrite E. f_equal. unfold ParseStream_start.
    destruct (bodyReader req) as [br0|]; [|reflexivity].
    now destruct (ReadFull br0 16) as [[trBuf br]|err].
Qed.

(** ** Teardown *)

Lemma ParseStream_quiet (req : Request) (e : Env) (ret : option error) (s : sys) :
  ParseStream req e ret s ->
  workCh s = [] /\ Forall (fun w => w = WExit) (workers s) /\ wg s = 0 /\
  inFlight s = [] /\
  (forall br, main (ParseStream_start req e) = MLoop br ->
     chClosed s = true /\ length (workers s) = Pos.to_nat gomaxprocs).
Proof.
  intros [R M].
  destruct (start_cases req e)
    as [[B E]|[(br0 & err & B & H & E)|(br0 & hdr & br & B & H & E)]];
    rewrite E in *.
  - apply early_stuck in R. subst s. repeat split; auto; discriminate.
  - apply early_stuck in R. subst s. repeat split; auto; discriminate.
  - assert (I : Inv s) by (eapply steps_Inv; [apply started_Inv|exact R]).
    destruct (done_quiet s ret I M) as (A1 & A2 & A3 & A4 & A5 & A6).
    repeat split; auto.
Qed.

(** C6. Every call returns, the callback being one that returns: no
    schedule of the reader and the workers runs forever, and a state in
    which the call has not yet returned can always take a step. When the
    call returns the channel is empty, every worker has left its loop, the
    wait group is at zero and no item is left in a worker's hands, in the
    channel or in a pending send; when the loop was entered, the channel has
    been closed and all gomaxprocs workers have exited. *)
Theorem C6_teardown (req : Request) (e : Env) :
  (exists ret s, ParseStream req e ret s) /\
  (forall s, steps (ParseStream_start req e) s ->
     Acc (fun s2 s1 => step s1 s2) s /\
     ((forall ret, main s <> MDone ret) -> exists s', step s s')) /\
  (forall ret s, ParseStream req e ret s ->
     workCh s = [] /\ Forall (fun w => w = WExit) (workers s) /\ wg s = 0 /\
     inFlight s = [] /\
     (forall br, main (ParseStream_start req e) = MLoop br ->
        chClosed s = true /\ length (workers s) = Pos.to_nat gomaxprocs)).
Proof.
  split; [apply ParseStream_returns|]. split; [|apply ParseStream_quiet].
  intros s R. split; [apply every_run_ends|]. intros ND.
  destruct (start_cases req e)
    as [[B E]|[(br0 & err & B & H & E)|(br0 & hdr & br & B & H & E)]];
    rewrite E in R.
  - apply early_stuck in R. subst s. now destruct (ND (Some ErrGzip)).
  - apply early_stuck in R. subst s.
    now destruct (ND (Some (ErrReadTimeRange err))).
  - apply progress; [|exact ND].
    eapply steps_Inv; [apply started_Inv|exact R].
Qed.

Lemma step_sends (s s' : sys) :
  step s s' -> exists new, sends (env s') = sends (env s) ++ new.
Proof.
  destruct 1 as [br q cl ws n t e uw e1 o c G R | uw br q cl ws n t e L | | | |
                 m uw q cl ws1 ws2 n t e | ]; simpl;
    try (exists []; now rewrite app_nil_r).
  - exists []. apply getUnmarshalWork_effect in G.
    destruct G as (_ & _ & -> & _). now rewrite app_nil_r.
  - now exists [uw].
  - exists []. destruct (processWork_effect t uw e) as (_ & _ & _ & _ & _ & _ & -> & _).
    now rewrite app_nil_r.
Qed.

Lemma steps_sends (s s' : sys) :
  steps s s' -> exists new, sends (env s') = sends (env s) ++ new.
Proof.
  induction 1 as [s|s1 s2 s3 R IH H].
  - exists []. now rewrite app_nil_r.
  - destruct IH as (new1 & E1). destruct (step_sends _ _ H) as (new2 & E2).
    exists (new1 ++ new2). now rewrite E2, E1, app_assoc.
Qed.

Lemma start_env (req : Request) (e : Env) :
  pool (env (ParseStream_start req e)) = pool e /\
  calls (env (ParseStream_start req e)) = calls e /\
  sends (env (ParseStream_start req e)) = sends e.
Proof.
  unfold ParseStream_start.
  destruct (bodyReader req) as [br0|]; [|now repeat split].
  now destruct (ReadFull br0 16) as [[trBuf br]|err].
Qed.

(** ** Items and the pool *)

(** C3, as the code has it. Every call returns, and when it does no item is
    left in flight: each item that was sent on the channel has gone through
    the worker body, which on each of its three paths puts the item back
    reset, so the puts of the call are as many as its sends, and whatever
    the pool holds beyond what it held before reads as empty. *)
Theorem C3_sent_items_released (req : Request) (e : Env) :
  (forall t uw e',
     puts (processWork t uw e') = S (puts e') /\
     exists uw', pool (processWork t uw e') = reset uw' :: pool e') /\
  (exists ret s, ParseStream req e ret s) /\
  (forall ret s, ParseStream req e ret s ->
     inFlight s = [] /\
     (exists new, sends (env s) = sends e ++ new /\
                  puts (env s) = puts e + length new) /\
     Forall (fun uw => isReset uw \/ In uw (pool e)) (pool (env s))).
Proof.
  split; [|split; [apply ParseStream_returns|]].
  - intros t uw e'. unfold processWork.
    destruct (unmarshal uw t (cnt e')) as [[uw'|err] c']; simpl.
    + destruct (callback (calls e') (block uw')); simpl; eauto.
    + eauto.
  - intros ret s P.
    destruct (ParseStream_quiet req e ret s P) as (_ & _ & _ & Q & _).
    destruct (ParseStream_counts req e ret s P) as (_ & _ & _ & Hp & _ & Hs).
    destruct (start_env req e) as (Ep & _ & Es).
    destruct P as [R _].
    split; [exact Q|]. split.
    + destruct (steps_sends _ _ R) as (new & E). rewrite Es in E.
      exists new. split; [exact E|]. rewrite Hp. f_equal.
      apply (f_equal (@length _)) in Hs.
      rewrite E, !length_map, !length_app in Hs. lia.
    + apply steps_pool in R. now rewrite Ep in R.
Qed.

(** ** Callback invocations *)

(** C4. On a stream made of the header and whole records, ended cleanly,
    ParseStream returns nil, and the callback has then been invoked once
    for each record except those whose decoding failed, whatever the
    callback answered. *)
Theorem C4_callback_invocations (req : Request) (e : Env) (hdr : list byte)
    (rs : list wireRecord) :
  bodyReader req = Some (mkReader (hdr ++ wireAll rs) false) ->
  length hdr = 16 -> Forall wellFramed rs ->
  returnsOnly req e None /\
  (forall ret s, ParseStream req e ret s ->
     length (calls (env s)) =
     length (calls e)
     + (length rs - undecoded (headerRange hdr) (map workOf rs))) /\
  (forall t uw e',
     decodes t uw = true ->
     length (calls (processWork t uw e')) = S (length (calls e'))).
Proof.
  intros B L F. rewrite <- (app_nil_r (wireAll rs)) in B.
  destruct (framed_stream req e hdr rs [] false B L F) as [R A].
  split; [exact R|]. split.
  - intros ret s P. destruct (A ret s P) as (_ & Ac & _).
    unfold sent in Ac. rewrite readAll_end in Ac. cbn [fst snd] in Ac.
    rewrite app_nil_r in Ac. rewrite Ac.
    pose proof (decoded_undecoded (headerRange hdr) (map workOf rs)) as D.
    rewrite length_map in D. lia.
  - intros t uw e' D.
    destruct (processWork_effect t uw e') as (_ & _ & _ & _ & _ & Hc & _).
    rewrite Hc, D. lia.
Qed.

(** ** Bytes left over *)

Lemma trailing_undecoded (t : TimeRange) (uw : unmarshalWork)
    (mn : MetricNameT) (rows : StorageBlock) (tail : list byte) :
  UnmarshalNoAccountIDProjectID (metricNameBuf uw) = Some mn ->
  UnmarshalPortable (blockBuf uw) = Some (rows, tail) -> tail <> [] ->
  forall c,
    unmarshal uw t c =
    (Err (ErrNonEmptyTail (length (blockBuf uw)) (length tail)), c).
Proof.
  intros Hn Hb Ht c. unfold unmarshal. rewrite Hn, Hb.
  destruct tail; [congruence|]. reflexivity.
Qed.

(** C8. A record whose block data parses but leaves bytes over makes
    [unmarshal] fail; the worker body then adds one to parseErrors, does not
    invoke the callback, puts the item back reset, and the worker goes on.
    In a stream of whole records such a record costs one parse error and no
    more: ParseStream still returns nil and the records before and after it
    are decoded and handed to the callback as if it were not there. *)
Theorem C8_trailing_bytes (req : Request) (e : Env) (hdr : list byte)
    (rs1 : list wireRecord) (r : wireRecord) (rs2 : list wireRecord)
    (mn : MetricNameT) (rows : StorageBlock) (tail : list byte) :
  bodyReader req = Some (mkReader (hdr ++ wireAll (rs1 ++ r :: rs2)) false) ->
  length hdr = 16 -> Forall wellFramed (rs1 ++ r :: rs2) ->
  UnmarshalNoAccountIDProjectID (nameBytes r) = Some mn ->
  UnmarshalPortable (blockBytes r) = Some (rows, tail) -> tail <> [] ->
  (forall t uw e',
     metricNameBuf uw = nameBytes r -> blockBuf uw = blockBytes r ->
     processWork t uw e' =
     mkEnv (parseErrors_Inc (cnt e')) (reset uw :: pool e') (calls e')
           (sends e') (gets e') (S (puts e'))) /\
  (forall m q cl ws1 ws2 n t e' uw,
     step (mkSys m q cl (ws1 ++ WBusy uw :: ws2) n t e')
          (mkSys m q cl (ws1 ++ WRecv :: ws2) n t (processWork t uw e'))) /\
  returnsOnly req e None /\
  (forall ret s, ParseStream req e ret s ->
     let others := map workOf (rs1 ++ rs2) in
     length (calls (env s))
     = length (calls e) + decoded (headerRange hdr) others /\
     parseErrors (cnt (env s))
     = (parseErrors (cnt e) + 1
        + N.of_nat (undecoded (headerRange hdr) others))%N /\
     puts (env s) = puts e + S (length others)).
Proof.
  intros B L F Hn Hb Ht. rewrite <- (app_nil_r (wireAll _)) in B.
  destruct (framed_stream req e hdr _ [] false B L F) as [R A].
  split; [|split; [|split; [exact R|]]].
  - intros t uw e' En Eb. unfold processWork.
    rewrite (trailing_undecoded t uw mn rows tail) by congruence.
    reflexivity.
  - intros. apply step_work.
  - intros ret s P others.
    destruct (A ret s P) as (_ & Ac & Ap & _ & _ & _ & _ & Au).
    unfold sent, counted in *. rewrite readAll_end in *.
    cbn [fst snd] in *. rewrite app_nil_r in *.
    assert (D : decodes (headerRange hdr) (workOf r) = false).
    { unfold decodes.
      now rewrite (trailing_undecoded (headerRange hdr) (workOf r) mn rows tail). }
    unfold others. rewrite map_app in *. cbn [map] in *.
    rewrite decoded_app, decoded_cons, D in Ac.
    rewrite undecoded_app, undecoded_cons, D in Ap.
    rewrite decoded_app, undecoded_app, !length_app in *. cbn [length] in *.
    simpl in Ap. repeat split; lia.
Qed.

(** ** More on the reader: what it counts and what it accepts *)

Lemma readRecord_reads (br : Reader) (uw : unmarshalWork) :
  let '(o, d) := readRecord br uw Counters_zero in
  match o with
  | RecEnd => readCalls d = 0%N /\ blocksRead d = 0%N
  | RecErr err => readCalls d = readsBefore (Some err) /\ blocksRead d = 0%N
  | RecOk _ _ => readCalls d = 4%N /\ blocksRead d = 1%N
  end.
Proof.
  unfold readRecord.
  destruct (ReadFull br 4) as [[sz1 br1]|[]]; simpl; auto.
  destruct (maxBufSize <? UnmarshalUint32 sz1)%N; simpl; auto.
  destruct (ReadFull br1 _) as [[nm br2]|e2]; simpl; auto.
  destruct (ReadFull br2 4) as [[sz2 br3]|e3]; simpl; auto.
  destruct (maxBufSize <? UnmarshalUint32 sz2)%N; simpl; auto.
  destruct (ReadFull br3 _) as [[bl br4]|e4]; simpl; auto.
Qed.

Lemma readLoop_reads (fuel : nat) (br : Reader) :
  let '(l, ret, d) := readLoop fuel br in
  readCalls d = (4 * N.of_nat (length l) + readsBefore ret)%N /\
  blocksRead d = N.of_nat (length l).
Proof.
  revert br. induction fuel as [|fuel IH]; intros br; [now simpl|].
  cbn [readLoop].
  pose proof (readRecord_reads br unmarshalWork_zero) as H.
  destruct (readRecord br unmarshalWork_zero Counters_zero) as [[|err|u br'] d];
    try (cbn [length]; destruct H as [-> ->]; split; reflexivity).
  specialize (IH br'). destruct (readLoop fuel br') as [[l ret] d'].
  destruct H as [H1 H2], IH as [I1 I2].
  unfold Counters_add. cbn [readCalls blocksRead length].
  rewrite H1, H2, I1, I2. split; lia.
Qed.

Lemma counted_reads (br : Reader) :
  readCalls (counted br)
    = (4 * N.of_nat (length (sent br)) + readsBefore (returned br))%N /\
  blocksRead (counted br) = N.of_nat (length (sent br)).
Proof.
  unfold counted, returned, sent, readAll.
  pose proof (readLoop_reads (S (length (avail br))) br) as H.
  destruct (readLoop (S (length (avail br))) br) as [[l ret] d]. exact H.
Qed.

(** What [readRecord] tells about the bytes it was given. *)
Lemma readRecord_RecEnd (br : Reader) (uw : unmarshalWork) (c : Counters) :
  fst (readRecord br uw c) = RecEnd -> avail br = [] /\ broken br = false.
Proof.
  unfold readRecord, ReadFull at 1.
  destruct (4 <=? length (avail br)) eqn:E.
  - cbn [fst].
    destruct (maxBufSize <? _)%N; [discriminate|].
    destruct (ReadFull _ _) as [[nm br2]|e2]; [|discriminate].
    destruct (ReadFull br2 4) as [[sz2 br3]|e3]; [|discriminate].
    destruct (maxBufSize <? _)%N; [discriminate|].
    destruct (ReadFull br3 _) as [[bl br4]|e4]; discriminate.
  - destruct (broken br); [discriminate|].
    destruct (avail br); [auto|discriminate].
Qed.

Lemma readRecord_RecOk (br br' : Reader) (uw u : unmarshalWork) (c : Counters) :
  fst (readRecord br uw c) = RecOk u br' ->
  exists r,
    wellFramed r /\ avail br = wire r ++ avail br' /\
    broken br' = broken br /\ bufsOf u = payloads r.
Proof.
  unfold readRecord.
  destruct (ReadFull br 4) as [[sz1 br1]|[]] eqn:E1; simpl; try discriminate.
  destruct (maxBufSize <? UnmarshalUint32 sz1)%N eqn:G1; simpl; try discriminate.
  destruct (ReadFull br1 _) as [[nm br2]|e2] eqn:E2; simpl; try discriminate.
  destruct (ReadFull br2 4) as [[sz2 br3]|e3] eqn:E3; simpl; try discriminate.
  destruct (maxBufSize <? UnmarshalUint32 sz2)%N eqn:G2; simpl; try discriminate.
  destruct (ReadFull br3 _) as [[bl br4]|e4] eqn:E4; simpl; try discriminate.
  intros H; inversion H; subst.
  apply ReadFull_Ok in E1, E2, E3, E4.
  destruct E1 as (A1 & L1 & B1), E2 as (A2 & L2 & B2),
           E3 as (A3 & L3 & B3), E4 as (A4 & L4 & B4).
  apply N.ltb_ge in G1, G2.
  exists (mkWire sz1 nm sz2 bl). unfold wellFramed, framed, wire; simpl.
  repeat split; auto; try lia; try congruence.
  - rewrite A1, A2, A3, A4, <- !app_assoc. reflexivity.
Qed.

Lemma readLoop_nil (fuel : nat) (br : Reader) :
  length (avail br) < fuel ->
  snd (fst (readLoop fuel br)) = None ->
  broken br = false /\
  exists rs, avail br = wireAll rs /\ Forall wellFramed rs.
Proof.
  revert br. induction fuel as [|fuel IH]; intros br L; [lia|].
  cbn [readLoop].
  destruct (readRecord br unmarshalWork_zero Counters_zero) as [[|err|u br'] d] eqn:E.
  - intros _. destruct (readRecord_RecEnd br unmarshalWork_zero Counters_zero)
      as [A B]; [now rewrite E|].
    split; [exact B|]. exists []. split; [exact A|constructor].
  - discriminate.
  - destruct (readRecord_RecOk br br' unmarshalWork_zero u Counters_zero)
      as (r & Fr & A & B & _); [now rewrite E|].
    assert (Hs : length (avail br') + 8 <= length (avail br))
      by (eapply readRecord_shrinks; rewrite E; reflexivity).
    specialize (IH br'). destruct (readLoop fuel br') as [[l ret] d'].
    cbn [fst snd] in *. intros R.
    destruct IH as (B' & rs & A' & F'); [lia|exact R|].
    split; [congruence|]. exists (r :: rs). split; [|now constructor].
    rewrite A, A'. reflexivity.
Qed.

Lemma readLoop_broken (fuel : nat) (br : Reader) :
  length (avail br) < fuel -> broken br = true ->
  snd (fst (readLoop fuel br)) <> None.
Proof.
  intros L B H. destruct (readLoop_nil fuel br L H) as [B' _]. congruence.
Qed.

(** ** Further properties of a call *)

(** X1. When the request says gzip and the gzip reader cannot be opened,
    ParseStream returns the gzip error at once: no counter moves (the
    failure is not a read error), nothing is sent and no worker exists.
    Any other Content-Encoding leaves the body to be read as it is. *)
Theorem gzip_failure_touches_nothing (req : Request) (e : Env) :
  (ContentEncoding req = "gzip"%string -> GetGzipReader (Body req) = None ->
   returnsOnly req e (Some ErrGzip) /\
   forall ret s, ParseStream req e ret s ->
     env s = e /\ workers s = [] /\ workCh s = []) /\
  (ContentEncoding req <> "gzip"%string -> bodyReader req = Some (Body req)).
Proof.
  split.
  - intros C G.
    assert (B : bodyReader req = None).
    { unfold bodyReader. now rewrite C, String.eqb_refl. }
    assert (E : ParseStream_start req e = earlyReturn ErrGzip e).
    { unfold ParseStream_start. now rewrite B. }
    assert (A : forall ret s, ParseStream req e ret s -> s = earlyReturn ErrGzip e).
    { intros ret s [R _]. rewrite E in R. now apply early_stuck in R. }
    split; [split|].
    + eexists. split; [apply steps_refl|]. rewrite E. reflexivity.
    + intros ret s P. pose proof (A ret s P) as ->.
      destruct P as [_ M]. simpl in M. congruence.
    + intros ret s P. rewrite (A ret s P). now repeat split.
  - intros C. unfold bodyReader.
    destruct (String.eqb_spec (ContentEncoding req) "gzip"); [contradiction|].
    reflexivity.
Qed.

Lemma returned_broken (br : Reader) : broken br = true -> returned br <> None.
Proof.
  intros B. unfold returned, readAll. apply readLoop_broken; [lia|exact B].
Qed.

(** X2. A body that ends in a transport failure never makes ParseStream
    return nil, wherever the failure falls. When it falls right after whole
    records, where a clean end would have been the normal end, the call
    returns the read error of the first size, after having sent every one of
    those records on. *)
Theorem transport_failure_is_never_a_clean_end (req : Request) (e : Env)
    (br0 : Reader) :
  bodyReader req = Some br0 -> broken br0 = true ->
  (exists ret s, ParseStream req e ret s) /\
  (forall ret s, ParseStream req e ret s -> ret <> None) /\
  (forall hdr rs,
     avail br0 = hdr ++ wireAll rs -> length hdr = 16 -> Forall wellFramed rs ->
     returnsOnly req e (Some (ErrReadMetricNameSize ErrTransport)) /\
     forall ret s, ParseStream req e ret s ->
       map bufsOf (sends (env s)) = map bufsOf (sends e) ++ map payloads rs /\
       readErrors (cnt (env s)) = (readErrors (cnt e) + 1)%N).
Proof.
  intros B K. split; [apply ParseStream_returns|]. split.
  - intros ret s [R M].
    destruct (start_cases req e)
      as [[B' E]|[(b0 & err & B' & H & E)|(b0 & hdr & br & B' & H & E)]];
      rewrite E in R.
    + congruence.
    + apply early_stuck in R. subst s. simpl in M. congruence.
    + destruct (run_observed _ _ _ _ _ R M) as [O _].
      rewrite finish_started in O. apply (f_equal sRet) in O. simpl in O.
      rewrite O. apply returned_broken.
      apply ReadFull_Ok in H. destruct H as (_ & _ & ->). congruence.
  - intros hdr rs A L F. destruct br0 as [l b]. simpl in A, K. subst l b.
    rewrite <- (app_nil_r (wireAll rs)) in B.
    destruct (framed_stream req e hdr rs [] true B L F) as [R Q].
    assert (E : readAll (mkReader [] true)
                = ([], Some (ErrReadMetricNameSize ErrTransport),
                   readErrors_Inc Counters_zero)) by reflexivity.
    unfold returned in R. rewrite E in R. split; [exact R|].
    intros ret s P.
    destruct (Q ret s P) as (_ & _ & _ & Qe & _ & _ & _ & _ & Qs).
    unfold sent, counted in *. rewrite E in *. cbn [fst snd map] in *.
    rewrite app_nil_r in Qs. split; [exact Qs|]. simpl in Qe. exact Qe.
Qed.

(** X3. On a body that ends cleanly, ParseStream can return nil exactly when
    what follows the header is a sequence of whole records, each size being
    the length of its payload and at most 1048576. *)
Theorem nil_exactly_on_whole_records (req : Request) (e : Env)
    (hdr body : list byte) (b : bool) :
  bodyReader req = Some (mkReader (hdr ++ body) b) -> length hdr = 16 ->
  ((exists s, ParseStream req e None s) <->
   b = false /\ exists rs, body = wireAll rs /\ Forall wellFramed rs).
Proof.
  intros B L. split.
  - intros (s & P).
    destruct (entered_returnsOnly req e hdr body b B L) as [_ U].
    pose proof (U None s P) as R.
    unfold returned, readAll in R. symmetry in R.
    destruct (readLoop_nil _ (mkReader body b) (Nat.lt_succ_diag_r _) R)
      as (K & rs & A & F).
    split; [exact K|]. now exists rs.
  - intros (-> & rs & -> & F).
    rewrite <- (app_nil_r (wireAll rs)) in B.
    destruct (framed_stream req e hdr rs [] false B L F) as [[X _] _].
    exact X.
Qed.

(** X4. When a call returns, blocksRead has grown by the number of items
    sent on the channel, and readCalls by four for each of them plus the
    reads that succeeded in the record at which the loop ended: none, one,
    two or three, as the returned error tells. The read of the header is
    not counted. *)
Theorem read_calls_accounting (req : Request) (e : Env) :
  (exists ret s, ParseStream req e ret s) /\
  forall ret s, ParseStream req e ret s ->
    exists new,
      sends (env s) = sends e ++ new /\
      blocksRead (cnt (env s)) = (blocksRead (cnt e) + N.of_nat (length new))%N /\
      readCalls (cnt (env s))
      = (readCalls (cnt e) + 4 * N.of_nat (length new) + readsBefore ret)%N.
Proof.
  split; [apply ParseStream_returns|]. intros ret s [R M].
  destruct (steps_sends _ _ R) as (new & E).
  destruct (start_env req e) as (_ & _ & Es). rewrite Es in E.
  exists new. split; [exact E|].
  destruct (start_cases req e)
    as [[B' H]|[(b0 & err & B' & _ & H)|(b0 & hdr & br & B' & _ & H)]];
    rewrite H in R.
  - apply early_stuck in R. subst s. simpl in *.
    inversion M; subst ret.
    apply (f_equal (@length _)) in E. rewrite length_app in E.
    assert (length new = 0) by lia. destruct new; [|discriminate].
    simpl. split; lia.
  - apply early_stuck in R. subst s. simpl in *.
    inversion M; subst ret.
    apply (f_equal (@length _)) in E. rewrite length_app in E.
    assert (length new = 0) by lia. destruct new; [|discriminate].
    simpl. split; lia.
  - destruct (run_observed _ _ _ _ _ R M) as [O _].
    rewrite finish_started in O. unfold observed in O.
    inversion O as [[Or O1 O2 O3 O4 O5 O6 O7 O8 O9]].
    destruct (counted_reads br) as [Cr Cb].
    apply (f_equal (@length _)) in O7.
    rewrite E, !length_map, !length_app in O7.
    assert (Ln : length new = length (sent br)) by lia.
    rewrite Cb, Cr in *. rewrite Ln. split; lia.
Qed.

(** ** The blocks a call hands over *)

Lemma unmarshal_fst (uw : unmarshalWork) (t : TimeRange) (c c' : Counters) :
  fst (unmarshal uw t c) = fst (unmarshal uw t c').
Proof.
  unfold unmarshal.
  destruct (UnmarshalNoAccountIDProjectID (metricNameBuf uw)); simpl; auto.
  destruct (UnmarshalPortable (blockBuf uw)) as [[b tl]|]; simpl; auto.
  destruct (0 <? length tl); simpl; auto.
Qed.

Lemma blockOf_bufs (t a a' : TimeRange) (n b : list byte) (k k' : Block) :
  blockOf t (mkWork a n b k) = blockOf t (mkWork a' n b k').
Proof.
  unfold blockOf, unmarshal; simpl.
  destruct (UnmarshalNoAccountIDProjectID n); simpl; auto.
  destruct (UnmarshalPortable b) as [[sb tl]|]; simpl; auto.
  destruct (0 <? length tl); simpl; auto.
Qed.

Lemma rowsIn_blockOf (t : TimeRange) (uw : unmarshalWork) :
  rowsIn (blockOf t uw) = rowsOf t uw.
Proof.
  unfold rowsIn, blockOf, rowsOf.
  destruct (fst (unmarshal uw t Counters_zero)); simpl; lia.
Qed.

Lemma rowsIn_app (l1 l2 : list Block) : rowsIn (l1 ++ l2) = rowsIn l1 + rowsIn l2.
Proof. unfold rowsIn. now rewrite map_app, list_sum_app. Qed.

Lemma rejected_app (past l1 l2 : list Block) :
  rejected past (l1 ++ l2) = rejected past l1 + rejected (past ++ l1) l2.
Proof.
  revert past. induction l1 as [|b l1 IH]; intros past; simpl.
  - now rewrite app_nil_r.
  - rewrite IH, <- app_assoc. simpl. lia.
Qed.

Lemma rejected_le (past new : list Block) : rejected past new <= length new.
Proof.
  revert past. induction new as [|b new IH]; intros past; simpl; [lia|].
  specialize (IH (past ++ [b])). destruct (callback past b); lia.
Qed.

Lemma processWork_log (t : TimeRange) (uw : unmarshalWork) (e : Env) :
  calls (processWork t uw e) = calls e ++ blockOf t uw /\
  processErrors (cnt (processWork t uw e))
  = (processErrors (cnt e) + N.of_nat (rejected (calls e) (blockOf t uw)))%N.
Proof.
  unfold processWork, blockOf.
  rewrite (unmarshal_fst uw t Counters_zero (cnt e)).
  pose proof (unmarshal_counters uw t (cnt e)) as H.
  destruct (unmarshal uw t (cnt e)) as [[uw'|err] c'].
  - destruct H as (_ & _ & ->). cbn [fst rejected].
    destruct (callback (calls e) (block uw')); simpl; split; auto; lia.
  - destruct H as (_ & _ & ->). simpl. rewrite app_nil_r. split; auto; lia.
Qed.

Lemma readRecord_processErrors (br : Reader) (uw : unmarshalWork) (c : Counters) :
  processErrors (snd (readRecord br uw c)) = processErrors c.
Proof.
  unfold readRecord.
  destruct (ReadFull br 4) as [[sz1 br1]|[]]; simpl; auto.
  destruct (maxBufSize <? UnmarshalUint32 sz1)%N; simpl; auto.
  destruct (ReadFull br1 _) as [[nm br2]|e2]; simpl; auto.
  destruct (ReadFull br2 4) as [[sz2 br3]|e3]; simpl; auto.
  destruct (maxBufSize <? UnmarshalUint32 sz2)%N; simpl; auto.
  destruct (ReadFull br3 _) as [[bl br4]|e4]; simpl; auto.
Qed.

Lemma delivered_app (t : TimeRange) (l1 l2 : list unmarshalWork) :
  delivered t (l1 ++ l2) = delivered t l1 ++ delivered t l2.
Proof. apply flat_map_app. Qed.

Ltac handover_norm :=
  unfold delivered;
  repeat (rewrite ?flat_map_app; cbn [flat_map held app]);
  rewrite ?app_nil_r, <- ?app_assoc.

Lemma step_handover (s s' : sys) :
  step s s' ->
  Permutation (handover s') (handover s) /\
  (length (workers s) = 1 -> handover s' = handover s).
Proof.
  destruct 1 as [br q cl ws n t e uw e1 o c G R | uw br q cl ws n t e L
                | ret q cl ws n t e | ret q cl ws t e
                | m uw q cl ws1 ws2 n t e | m uw q cl ws1 ws2 n t e
                | m ws1 ws2 n t e];
    unfold handover, inFlight; cbn [main workCh workers tr env].
  - assert (E : calls e1 ++ delivered t
                  ((flat_map held ws ++ q ++ sending (afterRecord o))
                   ++ fst (fst (ahead (afterRecord o))))
                = calls e ++ delivered t
                  ((flat_map held ws ++ q ++ sending (MLoop br))
                   ++ fst (fst (ahead (MLoop br))))).
    { apply getUnmarshalWork_effect in G. destruct G as (_ & -> & _).
      rewrite readRecord_eq in R. inversion R; subst o c; clear R.
      cbn [ahead sending]. rewrite (readAll_unfold br).
      destruct (readRecord br unmarshalWork_zero Counters_zero)
        as [[|err|u br'] d]; cbn [fst snd afterRecord sending ahead]; auto.
      destruct (readAll br') as [[l ret] d']. cbn [fst snd].
      destruct u as [a nb bb k]. cbn [metricNameBuf blockBuf].
      rewrite !app_nil_r, <- !app_assoc, !delivered_app.
      cbn [delivered flat_map app].
      rewrite (blockOf_bufs t (tr_ uw) a nb bb (block uw) k).
      now rewrite <- !app_assoc. }
    cbn [calls withCnt]. rewrite E. split; auto.
  - assert (E : calls (withSend uw e) ++ delivered t
                  ((flat_map held ws ++ (q ++ [uw]) ++ sending (MLoop br))
                   ++ fst (fst (ahead (MLoop br))))
                = calls e ++ delivered t
                  ((flat_map held ws ++ q ++ sending (MSend uw br))
                   ++ fst (fst (ahead (MSend uw br))))).
    { cbn [calls withSend sending ahead]. now rewrite <- !app_assoc. }
    rewrite E. split; auto.
  - split; auto.
  - split; auto.
  - handover_norm. split.
    + do 2 apply Permutation_app_head.
      rewrite !app_assoc. do 3 apply Permutation_app_tail.
      apply Permutation_app_comm.
    + rewrite length_app. cbn [length]. intros H.
      destruct ws1; [|simpl in H; lia]. destruct ws2; [|simpl in H; lia].
      reflexivity.
  - destruct (processWork_log t uw e) as [-> _].
    handover_norm. split.
    + apply Permutation_app_head.
      rewrite !app_assoc. do 4 apply Permutation_app_tail.
      apply Permutation_app_comm.
    + rewrite length_app. cbn [length]. intros H.
      destruct ws1; [|simpl in H; lia]. reflexivity.
  - handover_norm. split; auto.
Qed.

Lemma step_workers (s s' : sys) : step s s' -> length (workers s') = length (workers s).
Proof. destruct 1; simpl; rewrite ?length_app; reflexivity. Qed.

Lemma steps_handover (s s' : sys) :
  steps s s' ->
  Permutation (handover s') (handover s) /\
  (length (workers s) = 1 -> handover s' = handover s).
Proof.
  induction 1 as [s|s1 s2 s3 R [IP IE] H]; [split; auto|].
  destruct (step_handover _ _ H) as [HP HE]. split.
  - eapply Permutation_trans; eassumption.
  - intros L. rewrite HE, IE; auto.
    clear - R L. induction R as [|s1 s2 s3 R IH H]; auto.
    rewrite (step_workers _ _ H). auto.
Qed.

Lemma handover_done (s : sys) (ret : option error) :
  main s = MDone ret -> inFlight s = [] -> handover s = calls (env s).
Proof.
  intros M Q. unfold handover. rewrite M, Q. simpl. apply app_nil_r.
Qed.

Lemma handover_start (req : Request) (e : Env) :
  handover (ParseStream_start req e)
  = calls e ++ delivered (tr (ParseStream_start req e)) (sentBy req).
Proof.
  unfold handover, sentBy, ParseStream_start, inFlight.
  destruct (bodyReader req) as [br0|]; [|reflexivity].
  destruct (ReadFull br0 16) as [[trBuf br]|err]; [|reflexivity].
  cbn [main workCh workers tr env ahead sending].
  rewrite held_waiting. reflexivity.
Qed.

Lemma start_cnt (req : Request) (e : Env) :
  rowsRead (cnt (env (ParseStream_start req e))) = rowsRead (cnt e) /\
  processErrors (cnt (env (ParseStream_start req e))) = processErrors (cnt e) /\
  gets (env (ParseStream_start req e)) = gets e /\
  puts (env (ParseStream_start req e)) = puts e.
Proof.
  unfold ParseStream_start.
  destruct (bodyReader req) as [br0|]; [|now repeat split].
  now destruct (ReadFull br0 16) as [[trBuf br]|err].
Qed.

Lemma sentBy_framed (req : Request) (hdr : list byte) (rs : list wireRecord)
    (tail : list byte) (b : bool) :
  bodyReader req = Some (mkReader (hdr ++ wireAll rs ++ tail) b) ->
  length hdr = 16 -> Forall wellFramed rs ->
  sentBy req = map workOf rs ++ sent (mkReader tail b).
Proof.
  intros B L F. unfold sentBy. rewrite B, (header_read hdr _ b L).
  now destruct (readAll_wire rs tail b F) as [W _].
Qed.

Lemma ParseStream_handover (req : Request) (e : Env) (ret : option error) (s : sys) :
  ParseStream req e ret s ->
  exists new,
    calls (env s) = calls e ++ new /\
    Permutation new (delivered (tr s) (sentBy req)) /\
    (length (workers (ParseStream_start req e)) <= 1 ->
     new = delivered (tr s) (sentBy req)).
Proof.
  intros P.
  destruct (ParseStream_quiet req e ret s P) as (_ & _ & _ & Q & _).
  destruct P as [R M].
  destruct (steps_calls _ _ R) as (new & E & _).
  destruct (start_env req e) as (_ & Ec & _). rewrite Ec in E.
  destruct (steps_handover _ _ R) as [HP HE].
  rewrite (handover_done s ret M Q), handover_start, <- (steps_tr _ _ R) in HP, HE.
  exists new. split; [exact E|]. rewrite E in HP, HE. split.
  - now apply Permutation_app_inv_l in HP.
  - intros L.
    assert (W : length (workers (ParseStream_start req e)) = 1 \/
                workers (ParseStream_start req e) = []).
    { destruct (workers (ParseStream_start req e)) as [|w [|w' ws]];
        simpl in *; auto; lia. }
    destruct W as [W|W].
    + now apply HE, app_inv_head in W.
    + assert (S0 : sentBy req = []).
      { unfold sentBy. unfold ParseStream_start in W.
        destruct (bodyReader req) as [br0|]; [|reflexivity].
        destruct (ReadFull br0 16) as [[trBuf br]|err]; [|reflexivity].
        simpl in W. destruct (Pos.to_nat gomaxprocs) eqn:G; [lia|discriminate]. }
      rewrite S0 in *. cbn [delivered flat_map] in *.
      apply Permutation_app_inv_l, Permutation_sym, Permutation_nil in HP.
      exact HP.
Qed.

(** X5. Whatever the schedule of the workers, the blocks a call has handed
    to the callback when it returns are the blocks decoded from the items
    the reader sent, each one once and none besides, in some order; what an
    item decodes to depends on its two payloads and the time range alone,
    not on what the item held before. *)
Theorem callback_gets_the_decoded_blocks (req : Request) (e : Env) :
  (exists ret s, ParseStream req e ret s) /\
  (forall ret s, ParseStream req e ret s ->
     exists new,
       calls (env s) = calls e ++ new /\
       Permutation new (delivered (tr s) (sentBy req))) /\
  (forall t uw uw', bufsOf uw = bufsOf uw' -> blockOf t uw = blockOf t uw').
Proof.
  split; [apply ParseStream_returns|]. split.
  - intros ret s P.
    destruct (ParseStream_handover req e ret s P) as (new & E & HP & _).
    now exists new.
  - intros t [a n b k] [a' n' b' k'] H. unfold bufsOf in H. simpl in H.
    inversion H; subst. apply blockOf_bufs.
Qed.

(** X6. With a single worker (gomaxprocs 1) the callback is invoked in the
    order of the stream: the blocks handed over are those decoded from the
    items sent, in the order in which the reader sent them. *)
Theorem single_worker_keeps_stream_order (req : Request) (e : Env) :
  gomaxprocs = 1%positive ->
  forall ret s, ParseStream req e ret s ->
    calls (env s) = calls e ++ delivered (tr s) (sentBy req).
Proof.
  intros G ret s P.
  destruct (ParseStream_handover req e ret s P) as (new & E & _ & HE).
  rewrite E. f_equal. apply HE.
  unfold ParseStream_start.
  destruct (bodyReader req) as [br0|]; [|simpl; lia].
  destruct (ReadFull br0 16) as [[trBuf br]|err]; [|simpl; lia].
  simpl. rewrite repeat_length, G. simpl. lia.
Qed.

(** X7. A stream cut inside a record still delivers what came before the
    cut: ParseStream returns a read error, and by then every whole record
    before the cut has been sent on, and the callback has been handed the
    blocks decoded from exactly those records. *)
Theorem truncation_keeps_earlier_records (req : Request) (e : Env)
    (hdr : list byte) (rs : list wireRecord) (tail : list byte) :
  bodyReader req = Some (mkReader (hdr ++ wireAll rs ++ tail) false) ->
  length hdr = 16 -> Forall wellFramed rs -> truncated tail ->
  exists err,
    isStreamReadError err = true /\ returnsOnly req e (Some err) /\
    forall ret s, ParseStream req e ret s ->
      map bufsOf (sends (env s)) = map bufsOf (sends e) ++ map payloads rs /\
      exists new,
        calls (env s) = calls e ++ new /\
        Permutation new (delivered (headerRange hdr) (map workOf rs)).
Proof.
  intros B L F T.
  destruct (readAll_truncated tail T) as (err & S & Es & Er & _).
  destruct (framed_stream req e hdr rs tail false B L F) as [R A].
  exists err. split; [exact S|]. split; [now rewrite <- Er|].
  intros ret s P.
  destruct (A ret s P) as (At & _ & _ & _ & _ & _ & _ & _ & As).
  rewrite Es in As. simpl in As. rewrite app_nil_r in As.
  split; [exact As|].
  destruct (ParseStream_handover req e ret s P) as (new & E & HP & _).
  exists new. split; [exact E|].
  rewrite (sentBy_framed req hdr rs tail false B L F), Es, app_nil_r, At in HP.
  exact HP.
Qed.

(** ** The counters of the workers *)

Lemma step_ledger (s s' : sys) :
  step s s' ->
  exists add,
    calls (env s') = calls (env s) ++ add /\
    rowsRead (cnt (env s'))
    = (rowsRead (cnt (env s)) + N.of_nat (rowsIn add))%N /\
    processErrors (cnt (env s'))
    = (processErrors (cnt (env s)) + N.of_nat (rejected (calls (env s)) add))%N.
Proof.
  destruct 1 as [br q cl ws n t e uw e1 o c G R | uw br q cl ws n t e L
                | ret q cl ws n t e | ret q cl ws t e
                | m uw q cl ws1 ws2 n t e | m uw q cl ws1 ws2 n t e
                | m ws1 ws2 n t e];
    cbn [env];
    try (exists []; rewrite app_nil_r; simpl; repeat split; lia).
  - exists []. apply getUnmarshalWork_effect in G.
    destruct G as (Gc & Gl & _).
    pose proof (readRecord_rowsRead br uw (cnt e1)) as Hr.
    pose proof (readRecord_processErrors br uw (cnt e1)) as Hp.
    rewrite R in Hr, Hp. simpl in Hr, Hp.
    rewrite app_nil_r. simpl. rewrite Gc in *. repeat split; auto; lia.
  - exists (blockOf t uw).
    destruct (processWork_log t uw e) as [Hc Hp].
    destruct (processWork_effect t uw e) as (_ & _ & _ & Hr & _).
    rewrite rowsIn_blockOf. repeat split; auto.
Qed.

Lemma steps_ledger (s s' : sys) :
  steps s s' ->
  exists new,
    calls (env s') = calls (env s) ++ new /\
    rowsRead (cnt (env s'))
    = (rowsRead (cnt (env s)) + N.of_nat (rowsIn new))%N /\
    processErrors (cnt (env s'))
    = (processErrors (cnt (env s)) + N.of_nat (rejected (calls (env s)) new))%N.
Proof.
  induction 1 as [s|s1 s2 s3 R (new1 & E1 & R1 & P1) H].
  - exists []. rewrite app_nil_r. simpl. repeat split; lia.
  - destruct (step_ledger _ _ H) as (new2 & E2 & R2 & P2).
    exists (new1 ++ new2). rewrite E2, E1, app_assoc, R2, R1, P2, P1.
    rewrite rowsIn_app, rejected_app, E1. repeat split; lia.
Qed.

(** X8. In every state of a call, and so when it returns, rowsRead has
    grown by exactly the number of rows in the blocks handed to the callback
    so far, a worker's handling of one item (lines 63-75) being one step:
    rows that the time range filtered out, and rows of items that failed to
    decode, are never counted. *)
Theorem rows_read_are_the_rows_handed_over (req : Request) (e : Env) :
  forall s, steps (ParseStream_start req e) s ->
    exists new,
      calls (env s) = calls e ++ new /\
      rowsRead (cnt (env s)) = (rowsRead (cnt e) + N.of_nat (rowsIn new))%N.
Proof.
  intros s R. destruct (steps_ledger _ _ R) as (new & E & Hr & _).
  destruct (start_env req e) as (_ & Ec & _).
  destruct (start_cnt req e) as (Sr & _).
  exists new. rewrite E, Ec, Hr, Sr. now split.
Qed.

(** X9. In every state of a call, and so when it returns, processErrors has
    grown by exactly the number of invocations the callback answered with an
    error, a worker's handling of one item (lines 63-75) being one step;
    this is never more than the number of invocations. *)
Theorem process_errors_are_the_rejections (req : Request) (e : Env) :
  forall s, steps (ParseStream_start req e) s ->
    exists new,
      calls (env s) = calls e ++ new /\
      processErrors (cnt (env s))
      = (processErrors (cnt e) + N.of_nat (rejected (calls e) new))%N /\
      rejected (calls e) new <= length new.
Proof.
  intros s R. destruct (steps_ledger _ _ R) as (new & E & _ & Hp).
  destruct (start_env req e) as (_ & Ec & _).
  destruct (start_cnt req e) as (_ & Sp & _).
  exists new. rewrite E, Ec, Hp, Sp, Ec. repeat split. apply rejected_le.
Qed.

(** ** How much is in flight *)

Lemma step_queue (s s' : sys) :
  step s s' ->
  length (workCh s) <= 8 * Pos.to_nat gomaxprocs ->
  length (workCh s') <= 8 * Pos.to_nat gomaxprocs.
Proof.
  destruct 1; simpl; rewrite ?length_app; simpl; lia.
Qed.

Lemma held_le (ws : list workerPhase) : length (flat_map held ws) <= length ws.
Proof.
  induction ws as [|w ws IH]; [simpl; lia|].
  cbn [flat_map]. rewrite length_app. destruct w; simpl; lia.
Qed.

Lemma outstanding (br : Reader) (t : TimeRange) (e : Env) (s : sys) :
  steps (started br t e) s ->
  gets (env s) + puts e
  = gets e + puts (env s) + length (inFlight s)
    + match main s with
      | MLoop _ | MSend _ _ => 0
      | _ => 1
      end.
Proof.
  intros R. pose proof (steps_finish _ _ R) as F.
  rewrite finish_started in F. unfold finish, toGet, sent in F.
  destruct (main s) as [b|u b|r|r|r]; cbn [ahead] in F;
    try (destruct (readAll b) as [[l r] d]; cbn [fst snd] in F);
    inversion F as [[Fr F1 F2 F3 F4 F5 F6 F7 F8 F9]];
    rewrite ?length_app, ?app_nil_r in *; simpl in *; lia.
Qed.

(** X10. At no moment of a call does the channel hold more than
    8*gomaxprocs items, and the items obtained from the pool and not yet
    put back are never more than 9*gomaxprocs + 1, however long the stream;
    nor is an item ever put back that was not obtained. *)
Theorem in_flight_is_bounded (req : Request) (e : Env) :
  forall s, steps (ParseStream_start req e) s ->
    length (workCh s) <= 8 * Pos.to_nat gomaxprocs /\
    gets (env s) + puts e <= gets e + puts (env s) + 9 * Pos.to_nat gomaxprocs + 1 /\
    gets e + puts (env s) <= gets (env s) + puts e.
Proof.
  intros s R.
  destruct (start_cases req e)
    as [[B E]|[(b0 & err & B & H & E)|(b0 & hdr & br & B & H & E)]];
    rewrite E in R.
  - apply early_stuck in R. subst s. simpl. lia.
  - apply early_stuck in R. subst s. simpl. lia.
  - assert (Q : length (workCh s) <= 8 * Pos.to_nat gomaxprocs).
    { clear - R. remember (started br (headerRange hdr) e) as s0 eqn:E0.
      induction R as [|s1 s2 s3 R IH H].
      - subst. simpl. lia.
      - eapply step_queue; eauto. }
    pose proof (outstanding _ _ _ _ R) as O.
    assert (I : Inv s) by (eapply steps_Inv; [apply started_Inv|exact R]).
    destruct I as [W _ _ _ _].
    pose proof (held_le (workers s)) as Hh.
    unfold inFlight in O. rewrite !length_app in O.
    split; [exact Q|].
    destruct (main s); simpl in O; lia.
Qed.

(** ** What the pool hands out *)

Lemma zero_isReset : isReset unmarshalWork_zero.
Proof. reflexivity. Qed.

(** X11. When the pool holds only reset items as a call begins, it holds
    only reset items at every moment of the call, and whatever
    getUnmarshalWork hands out then, pooled or new, reads as empty: both
    buffers of length 0 and an empty block. *)
Theorem pool_hands_out_reset_items (req : Request) (e : Env) :
  Forall isReset (pool e) ->
  forall s, steps (ParseStream_start req e) s ->
    Forall isReset (pool (env s)) /\
    forall uw e1, getUnmarshalWork (env s) uw e1 ->
      metricNameBuf uw = [] /\ blockBuf uw = [] /\
      block uw = mkBlock MetricName_zero [] [] /\
      Forall isReset (pool e1).
Proof.
  intros F s R.
  assert (A : Forall isReset (pool (env s))).
  { pose proof (steps_pool _ _ R) as P.
    destruct (start_env req e) as (Ep & _). rewrite Ep in P.
    rewrite Forall_forall in *. intros x I.
    destruct (P x I) as [X|X]; auto. }
  split; [exact A|].
  assert (K : forall uw, isReset uw ->
                metricNameBuf uw = [] /\ blockBuf uw = [] /\
                block uw = mkBlock MetricName_zero [] []).
  { intros uw H. unfold isReset in H. rewrite H. now repeat split. }
  intros uw e1 G. destruct G as [|p1 v p2 E]; simpl.
  - destruct (K _ zero_isReset) as (K1 & K2 & K3). repeat split; auto.
  - rewrite E in A. apply Forall_app in A. destruct A as [A1 A2].
    inversion A2; subst.
    destruct (K v) as (K1 & K2 & K3); auto.
    repeat split; auto. apply Forall_app. now split.
Qed.

End Proofs.

Section NodeProofs.

Context {Ni : NodeImports}.

(** ** Maps *)

Lemma amap_get_set_same (V : Type) (k : string) (v : V) (m : amap V) :
  amap_get k (amap_set k v m) = Some v.
Proof.
  induction m as [|[k' v'] m IH]; simpl.
  - now rewrite String.eqb_refl.
  - destruct (String.eqb k' k) eqn:E; simpl.
    + now rewrite String.eqb_refl.
    + now rewrite E.
Qed.

Lemma amap_get_set_other (V : Type) (k k' : string) (v : V) (m : amap V) :
  k <> k' -> amap_get k' (amap_set k v m) = amap_get k' m.
Proof.
  intros N. induction m as [|[k0 v0] m IH]; simpl.
  - destruct (String.eqb_spec k k'); [contradiction|reflexivity].
  - destruct (String.eqb_spec k0 k) as [->|N0]; simpl.
    + destruct (String.eqb_spec k k'); [contradiction|reflexivity].
    + destruct (String.eqb_spec k0 k'); [reflexivity|exact IH].
Qed.

Lemma amap_set_keys (V : Type) (k : string) (v : V) (m : amap V) (x : string) :
  In x (map fst (amap_set k v m)) <-> x = k \/ In x (map fst m).
Proof.
  induction m as [|[k' v'] m IH]; simpl.
  - intuition.
  - destruct (String.eqb_spec k' k) as [->|N]; simpl.
    + intuition.
    + rewrite IH. intuition.
Qed.

Lemma amap_set_NoDup (V : Type) (k : string) (v : V) (m : amap V) :
  NoDup (map fst m) -> NoDup (map fst (amap_set k v m)).
Proof.
  induction m as [|[k' v'] m IH]; simpl; intros H.
  - constructor; [intros []|constructor].
  - inversion H as [|x l Hn Hd]; subst.
    destruct (String.eqb_spec k' k) as [->|N]; simpl.
    + now constructor.
    + constructor; [|now apply IH].
      rewrite amap_set_keys. intros [E|I]; [congruence|contradiction].
Qed.

Lemma length_zero_empty (s : string) : String.length s = 0 <-> s = ""%string.
Proof. destruct s; simpl; split; intros H; try reflexivity; discriminate. Qed.

Lemma nonEmpty_test (s : string) : (0 <? String.length s) = false <-> s = ""%string.
Proof.
  rewrite Nat.ltb_ge, <- length_zero_empty. lia.
Qed.

(** ** getAddrByType and getNodeAddr *)

Lemma getAddrByType_find (nas : list NodeAddress) (typ : string) :
  getAddrByType nas typ =
  match firstOfType nas typ with
  | Some na => Address na
  | None => ""%string
  end.
Proof.
  unfold firstOfType. induction nas as [|na nas IH]; simpl; [reflexivity|].
  now destruct (String.eqb (Type_ na) typ).
Qed.

(** X12. getAddrByType gives the address of the first entry of the type
    asked for, whatever that address is and whatever entries of the type
    follow, and the empty text when no entry has the type. *)
Theorem getAddrByType_first_match (nas : list NodeAddress) (typ : string) :
  (forall pre na post,
     nas = pre ++ na :: post -> Type_ na = typ ->
     (forall x, In x pre -> Type_ x <> typ) ->
     getAddrByType nas typ = Address na) /\
  ((forall x, In x nas -> Type_ x <> typ) -> getAddrByType nas typ = ""%string).
Proof.
  split.
  - intros pre na post -> T. induction pre as [|x pre IH]; intros H; simpl.
    + subst typ. now rewrite String.eqb_refl.
    + destruct (String.eqb_spec (Type_ x) typ) as [E|_].
      * exfalso. apply (H x); [now left|exact E].
      * apply IH. intros y I. apply H. now right.
  - induction nas as [|x nas IH]; intros H; simpl; [reflexivity|].
    destruct (String.eqb_spec (Type_ x) typ) as [E|_].
    + exfalso. apply (H x); [now left|exact E].
    + apply IH. intros y I. apply H. now right.
Qed.

Lemma getNodeAddr_firstNonEmpty (nas : list NodeAddress) :
  getNodeAddr nas = firstNonEmpty (map (getAddrByType nas) addrTypeOrder).
Proof. reflexivity. Qed.

Lemma firstNonEmpty_pick (l : list string) :
  (firstNonEmpty l = ""%string /\ forall x, In x l -> x = ""%string) \/
  (firstNonEmpty l <> ""%string /\
   exists pre post,
     l = pre ++ firstNonEmpty l :: post /\ forall x, In x pre -> x = ""%string).
Proof.
  induction l as [|a l IH]; simpl.
  - left. split; [reflexivity|intros x []].
  - destruct (0 <? String.length a) eqn:E.
    + right. split.
      * intros H. apply nonEmpty_test in H. congruence.
      * exists [], l. split; [reflexivity|intros x []].
    + apply nonEmpty_test in E. subst a.
      destruct IH as [[H A]|[H (pre & post & L & A)]].
      * left. split; [exact H|]. intros x [<-|I]; auto.
      * right. split; [exact H|].
        exists (""%string :: pre), post. split.
        -- simpl. now rewrite <- L.
        -- intros x [<-|I]; auto.
Qed.

(** X13. getNodeAddr gives the empty text exactly when none of the six
    types InternalIP, InternalDNS, ExternalIP, ExternalDNS, LegacyHostIP,
    Hostname yields an address; otherwise it gives what getAddrByType yields
    for the first of the six, in that order, that yields one, which is the
    address of the first entry of that type. An entry of any other type is
    never used, nor is a second entry of a type whose first entry has an
    empty address. *)
Theorem getNodeAddr_priority (nas : list NodeAddress) :
  (getNodeAddr nas = ""%string <->
   forall typ, In typ addrTypeOrder -> getAddrByType nas typ = ""%string) /\
  (forall pre typ post,
     addrTypeOrder = pre ++ typ :: post ->
     (forall t, In t pre -> getAddrByType nas t = ""%string) ->
     getAddrByType nas typ <> ""%string ->
     getNodeAddr nas = getAddrByType nas typ) /\
  (getNodeAddr nas <> ""%string ->
   exists typ na,
     In typ addrTypeOrder /\ firstOfType nas typ = Some na /\
     In na nas /\ Type_ na = typ /\ Address na = getNodeAddr nas).
Proof.
  rewrite getNodeAddr_firstNonEmpty. split; [|split].
  - destruct (firstNonEmpty_pick (map (getAddrByType nas) addrTypeOrder))
      as [[H A]|[H _]].
    + split; [|intros _; exact H]. intros _ typ I. apply A. now apply in_map.
    + split; [contradiction|]. intros A. exfalso. apply H.
      clear H. induction addrTypeOrder as [|t l IH]; simpl; [reflexivity|].
      rewrite (A t) by now left. simpl. apply IH. intros typ I. apply A. now right.
  - intros pre typ post -> A N. rewrite map_app. simpl.
    induction pre as [|t pre IH]; simpl.
    + destruct (0 <? String.length (getAddrByType nas typ)) eqn:E; [reflexivity|].
      apply nonEmpty_test in E. contradiction.
    + rewrite (A t) by now left. simpl. apply IH. intros x I. apply A. now right.
  - intros N.
    destruct (firstNonEmpty_pick (map (getAddrByType nas) addrTypeOrder))
      as [[H _]|[_ (pre & post & L & _)]]; [contradiction|].
    assert (I : In (firstNonEmpty (map (getAddrByType nas) addrTypeOrder))
                   (map (getAddrByType nas) addrTypeOrder)).
    { rewrite L at 2. apply in_or_app. right. now left. }
    apply in_map_iff in I. destruct I as (typ & E & I).
    rewrite <- E in N. rewrite getAddrByType_find in E, N.
    destruct (firstOfType nas typ) as [na|] eqn:F; [|contradiction].
    exists typ, na. unfold firstOfType in F.
    pose proof (find_some _ _ F) as [Hin Ht].
    apply String.eqb_eq in Ht. repeat split; auto.
Qed.

(** ** appendTargetLabels and getNodesLabels *)

Lemma appendTargetLabels_app (n : Node) (ms : list (amap string)) :
  appendTargetLabels n ms = ms ++ appendTargetLabels n [].
Proof.
  unfold appendTargetLabels.
  destruct (String.length (getNodeAddr (Addresses (Status n))) =? 0).
  - now rewrite app_nil_r.
  - reflexivity.
Qed.

Lemma getNodesLabels_from (nodes : list Node) (ms : list (amap string)) :
  fold_left (fun ms n => appendTargetLabels n ms) nodes ms
  = ms ++ flat_map (fun n => appendTargetLabels n []) nodes.
Proof.
  revert ms. induction nodes as [|n nodes IH]; intros ms; simpl.
  - now rewrite app_nil_r.
  - rewrite IH, (appendTargetLabels_app n ms), <- app_assoc. reflexivity.
Qed.

(** X14. getNodesLabels gives one label set for each node that has an
    address and none for a node without, in the order of the nodes; adding
    a node's labels to a list leaves what the list held in place. *)
Theorem one_label_set_per_addressed_node (nodes : list Node) :
  getNodesLabels nodes = flat_map (fun n => appendTargetLabels n []) nodes /\
  length (getNodesLabels nodes)
  = length (filter (fun n => negb (String.eqb (getNodeAddr (Addresses (Status n))) ""))
                   nodes) /\
  (forall n ms,
     (getNodeAddr (Addresses (Status n)) = ""%string ->
      appendTargetLabels n ms = ms) /\
     (getNodeAddr (Addresses (Status n)) <> ""%string ->
      exists m, appendTargetLabels n ms = ms ++ [m])).
Proof.
  assert (A : forall n ms,
             (getNodeAddr (Addresses (Status n)) = ""%string ->
              appendTargetLabels n ms = ms) /\
             (getNodeAddr (Addresses (Status n)) <> ""%string ->
              exists m, appendTargetLabels n ms = ms ++ [m])).
  { intros n ms. unfold appendTargetLabels. split.
    - intros ->. reflexivity.
    - intros N.
      destruct (Nat.eqb_spec (String.length (getNodeAddr (Addresses (Status n)))) 0)
        as [E|_].
      + apply length_zero_empty in E. contradiction.
      + eexists. reflexivity. }
  assert (F : getNodesLabels nodes
              = flat_map (fun n => appendTargetLabels n []) nodes)
    by apply (getNodesLabels_from nodes []).
  split; [exact F|]. split; [|exact A].
  rewrite F. clear F. induction nodes as [|n nodes IH]; [reflexivity|].
  cbn [flat_map filter]. rewrite length_app, IH.
  destruct (String.eqb_spec (getNodeAddr (Addresses (Status n))) "") as [E|N].
  - destruct (A n []) as [A0 _]. rewrite (A0 E). reflexivity.
  - destruct (A n []) as [_ A1]. destruct (A1 N) as (m & ->). reflexivity.
Qed.

Lemma append_prefix_inj (p a b : string) : (p ++ a = p ++ b)%string -> a = b.
Proof.
  induction p as [|c p IH]; simpl; intros H; [exact H|].
  inversion H. auto.
Qed.

Lemma used_In (t : string) (used : list string) :
  existsb (String.eqb t) used = true <-> In t used.
Proof.
  rewrite existsb_exists. split.
  - intros (x & I & E). apply String.eqb_eq in E. now subst.
  - intros I. exists t. split; [exact I|apply String.eqb_refl].
Qed.

Lemma firstOfType_skip (a : NodeAddress) (nas : list NodeAddress) (typ : string) :
  Type_ a <> typ -> firstOfType (a :: nas) typ = firstOfType nas typ.
Proof.
  intros N. unfold firstOfType. simpl.
  destruct (String.eqb_spec (Type_ a) typ); [contradiction|reflexivity].
Qed.

Lemma addressLabels_get (nas : list NodeAddress) (typ : string) :
  (forall a, In a nas ->
     SanitizeLabelName (Type_ a) = SanitizeLabelName typ -> Type_ a = typ) ->
  forall used m,
    amap_get (addressKey typ) (addressLabels nas used m) =
    if existsb (String.eqb typ) used then amap_get (addressKey typ) m
    else match firstOfType nas typ with
         | Some a => Some (Address a)
         | None => amap_get (addressKey typ) m
         end.
Proof.
  induction nas as [|a nas IH]; intros J used m.
  - simpl. now destruct (existsb _ used).
  - assert (J' : forall x, In x nas ->
                   SanitizeLabelName (Type_ x) = SanitizeLabelName typ ->
                   Type_ x = typ) by (intros x I; apply J; now right).
    cbn [addressLabels].
    destruct (existsb (String.eqb (Type_ a)) used) eqn:U.
    + rewrite (IH J'). destruct (existsb (String.eqb typ) used) eqn:T; auto.
      rewrite firstOfType_skip; auto.
      intros E. rewrite E, T in U. discriminate.
    + rewrite (IH J'). cbn [existsb].
      destruct (String.eqb_spec typ (Type_ a)) as [E|N]; cbn [orb].
      * subst typ. rewrite U. unfold firstOfType. simpl.
        rewrite String.eqb_refl. apply amap_get_set_same.
      * assert (K : addressKey (Type_ a) <> addressKey typ).
        { unfold addressKey. intros H. apply append_prefix_inj in H.
          apply N. symmetry. apply J; [now left|exact H]. }
        fold (addressKey (Type_ a)).
        rewrite amap_get_set_other by exact K.
        rewrite firstOfType_skip by congruence. reflexivity.
Qed.

Lemma addressLabels_other (nas : list NodeAddress) (k : string) :
  (forall a, In a nas -> addressKey (Type_ a) <> k) ->
  forall used m, amap_get k (addressLabels nas used m) = amap_get k m.
Proof.
  induction nas as [|a nas IH]; intros J used m; [reflexivity|].
  cbn [addressLabels].
  assert (J' : forall x, In x nas -> addressKey (Type_ x) <> k)
    by (intros x I; apply J; now right).
  destruct (existsb (String.eqb (Type_ a)) used).
  - apply IH, J'.
  - rewrite (IH J'). fold (addressKey (Type_ a)).
    apply amap_get_set_other. apply J. now left.
Qed.

(** X15. In the label set of a node with an address, the label of an
    address type carries the address of the first entry of that type, later
    entries of the type being ignored, provided no other type of the node
    is sanitized to the same label name; every label whose key is not that
    of an address type of the node is as registerLabelsAndAnnotations left
    it, having been given __address__ (the node address joined with the
    kubelet port), instance and __meta_kubernetes_node_name (the name). *)
Theorem address_labels_first_entry_wins (n : Node) (ms : list (amap string)) :
  getNodeAddr (Addresses (Status n)) <> ""%string ->
  let base :=
    amap_set "__meta_kubernetes_node_name" (Name (Metadata n))
      (amap_set "instance" (Name (Metadata n))
         (amap_set "__address__"
            (JoinHostPort (getNodeAddr (Addresses (Status n)))
               (Port (KubeletEndpoint (DaemonEndpoints (Status n))))) [])) in
  let registered :=
    registerLabelsAndAnnotations (Metadata n) "__meta_kubernetes_node" base in
  exists m,
    appendTargetLabels n ms = ms ++ [m] /\
    (forall typ a,
       (forall x, In x (Addresses (Status n)) ->
          SanitizeLabelName (Type_ x) = SanitizeLabelName typ -> Type_ x = typ) ->
       firstOfType (Addresses (Status n)) typ = Some a ->
       amap_get (addressKey typ) m = Some (Address a)) /\
    (forall k,
       (forall x, In x (Addresses (Status n)) -> addressKey (Type_ x) <> k) ->
       amap_get k m = amap_get k registered) /\
    amap_get "__address__" base
      = Some (JoinHostPort (getNodeAddr (Addresses (Status n)))
                (Port (KubeletEndpoint (DaemonEndpoints (Status n))))) /\
    amap_get "instance" base = Some (Name (Metadata n)) /\
    amap_get "__meta_kubernetes_node_name" base = Some (Name (Metadata n)).
Proof.
  intros N base registered.
  exists (addressLabels (Addresses (Status n)) [] registered).
  split; [|split; [|split; [|split; [|split]]]]; try reflexivity.
  - unfold appendTargetLabels.
    destruct (Nat.eqb_spec (String.length (getNodeAddr (Addresses (Status n)))) 0)
      as [E|_]; [|reflexivity].
    apply length_zero_empty in E. contradiction.
  - intros typ a J F. rewrite (addressLabels_get _ _ J). simpl. now rewrite F.
  - intros k J. now apply addressLabels_other.
Qed.

(** ** parseNodeList *)

Lemma find_app_first (A : Type) (f : A -> bool) (l1 l2 : list A) :
  find f (l1 ++ l2) = match find f l1 with
                      | Some x => Some x
                      | None => find f l2
                      end.
Proof.
  induction l1 as [|a l1 IH]; simpl; [reflexivity|].
  now destruct (f a).
Qed.

Lemma objectsByKey_get (items : list Node) (m : amap Node) (k : string) :
  amap_get k (fold_left (fun objectsByKey n => amap_set (Node_key n) n objectsByKey)
                        items m)
  = match find (fun n => String.eqb (Node_key n) k) (rev items) with
    | Some n => Some n
    | None => amap_get k m
    end.
Proof.
  revert m. induction items as [|a items IH]; intros m; [reflexivity|].
  cbn [fold_left rev]. rewrite IH, find_app_first.
  destruct (find _ (rev items)); [reflexivity|]. simpl.
  destruct (String.eqb_spec (Node_key a) k) as [<-|N].
  - apply amap_get_set_same.
  - now apply amap_get_set_other.
Qed.

Lemma objectsByKey_NoDup (items : list Node) (m : amap Node) :
  NoDup (map fst m) ->
  NoDup (map fst (fold_left (fun objectsByKey n => amap_set (Node_key n) n objectsByKey)
                            items m)).
Proof.
  revert m. induction items as [|a items IH]; intros m H; [exact H|].
  simpl. apply IH. now apply amap_set_NoDup.
Qed.

(** X16. When json.Unmarshal reports an error, parseNodeList gives no map,
    the metadata as the failed decoding left it, and an error that holds
    the data and wraps the one reported. Otherwise
    the map it gives holds, under each key, the last item of the list that
    has this key (a later item replaces an earlier one with the same key)
    and nothing under any other key, each key being there once. *)
Theorem parseNodeList_last_item_wins
    (json_Unmarshal : list byte -> NodeList * option string) (data : list byte) :
  (forall nl err,
     json_Unmarshal data = (nl, Some err) ->
     parseNodeList json_Unmarshal data
     = (None, ListMetadata nl, Some (ErrUnmarshalNodeList data err))) /\
  (forall nl,
     json_Unmarshal data = (nl, None) ->
     exists objectsByKey,
       parseNodeList json_Unmarshal data
       = (Some objectsByKey, ListMetadata nl, None) /\
       NoDup (map fst objectsByKey) /\
       forall k,
         amap_get k objectsByKey
         = find (fun n => String.eqb (Node_key n) k) (rev (Items nl))).
Proof.
  split.
  - intros nl msg E. unfold parseNodeList. now rewrite E.
  - intros nl E. unfold parseNodeList. rewrite E. eexists.
    split; [reflexivity|]. split.
    + apply objectsByKey_NoDup. constructor.
    + intros k. rewrite objectsByKey_get. simpl.
      now destruct (find _ (rev (Items nl))).
Qed.

End NodeProofs.

(** ** The statements on the sample streams *)

#[local] Existing Instances sampleCodecs sampleCaller.

Ltac sample_framed :=
  split; [reflexivity | split; [reflexivity | apply N.leb_le; reflexivity]].

Ltac sample_records :=
  repeat (constructor; [split; sample_framed|]); constructor.

Lemma C1_witness :
  returnsOnly (plainRequest (sampleHeader ++ wire cpuRecord)) sampleEnv None /\
  exists err,
    isStreamReadError err = true /\
    returnsOnly (plainRequest (sampleHeader ++ wire cpuRecord ++ [x00; x00]))
                sampleEnv (Some err).
Proof.
  split.
  - apply (C1_end_of_stream_policy
             (plainRequest (sampleHeader ++ wire cpuRecord)) sampleEnv
             sampleHeader [cpuRecord] []);
      [reflexivity | reflexivity | sample_records | reflexivity].
  - apply (C1_end_of_stream_policy
             (plainRequest (sampleHeader ++ wire cpuRecord ++ [x00; x00]))
             sampleEnv sampleHeader [cpuRecord] [x00; x00]);
      [reflexivity | reflexivity | sample_records |].
    apply trunc_nameSize. simpl. lia.
Defined.

Lemma C2_witness :
  returnsOnly
    (plainRequest (sampleHeader ++ wire cpuRecord ++ overSize ++ wire cpuRecord))
    sampleEnv (Some (ErrTooBigMetricNameSize 1048577)) /\
  returnsOnly
    (plainRequest (sampleHeader ++ wire cpuRecord
                   ++ nameSize cpuRecord ++ nameBytes cpuRecord ++ overSize))
    sampleEnv (Some (ErrTooBigBlockSize 1048577)) /\
  (forall uw c,
     fst (readRecord (mkReader (wire fullRecord ++ []) false) uw c)
     = RecOk (mkWork (tr_ uw) (nameBytes fullRecord) [] (block uw))
             (mkReader [] false)).
Proof.
  split; [|split].
  - destruct (C2_size_limit
                (plainRequest (sampleHeader ++ wire cpuRecord ++ overSize
                               ++ wire cpuRecord))
                sampleEnv sampleHeader [cpuRecord]
                (overSize ++ wire cpuRecord) false)
      as (H & _ & _); [reflexivity | reflexivity | sample_records |].
    destruct (H overSize (wire cpuRecord)) as (_ & _ & R & _);
      [reflexivity | reflexivity | reflexivity | exact R].
  - destruct (C2_size_limit
                (plainRequest (sampleHeader ++ wire cpuRecord
                               ++ nameSize cpuRecord ++ nameBytes cpuRecord
                               ++ overSize))
                sampleEnv sampleHeader [cpuRecord]
                (nameSize cpuRecord ++ nameBytes cpuRecord ++ overSize ++ [])
                false)
      as (_ & H & _); [reflexivity | reflexivity | sample_records |].
    destruct (H (nameSize cpuRecord) (nameBytes cpuRecord) overSize [])
      as (_ & _ & R & _);
      [reflexivity | sample_framed | reflexivity | reflexivity | exact R].
  - destruct (C2_size_limit
                (plainRequest (sampleHeader ++ wireAll [] ++ wire fullRecord ++ []))
                sampleEnv sampleHeader [] (wire fullRecord ++ []) false)
      as (_ & _ & H); [reflexivity | reflexivity | constructor |].
    apply (H fullRecord []); [reflexivity | | left; reflexivity].
    split; [|sample_framed].
    unfold fullRecord; cbn [nameSize nameBytes].
    split; [reflexivity|]. rewrite repeat_length, N2Nat.id.
    split; [reflexivity | apply N.le_refl].
Defined.

(** C3 as stated does not hold: on a stream that ends right after the
    header the call returns nil having obtained one item and put none
    back. *)
Lemma C3_counterexample :
  (forall ret s,
     ParseStream (plainRequest sampleHeader) sampleEnv ret s ->
     ret = None /\ gets (env s) = 1 /\ puts (env s) = 0) /\
  ~ (forall ret s,
       ParseStream (plainRequest sampleHeader) sampleEnv ret s ->
       nothingHeld sampleEnv s).
Proof.
  assert (A : forall ret s,
             ParseStream (plainRequest sampleHeader) sampleEnv ret s ->
             ret = None /\ gets (env s) = 1 /\ puts (env s) = 0).
  { intros ret s P.
    destruct (ParseStream_counts _ _ _ _ P) as (_ & _ & _ & Hp & Hg & _).
    destruct (framed_stream (plainRequest sampleHeader) sampleEnv
                sampleHeader [] [] false eq_refl eq_refl (Forall_nil _))
      as [[_ R] _].
    split; [exact (R ret s P)|]. split; [exact Hg | exact Hp]. }
  split; [exact A|]. intros H.
  destruct (ParseStream_returns (plainRequest sampleHeader) sampleEnv)
    as (ret & s & P).
  specialize (H ret s P). unfold nothingHeld in H.
  destruct (A ret s P) as (_ & Hg & Hp).
  rewrite Hp, Hg in H. discriminate H.
Qed.

Lemma C3_witness :
  exists ret s,
    ParseStream (plainRequest (sampleHeader ++ wire cpuRecord)) sampleEnv ret s /\
    (inFlight s = [] /\
     (exists new, sends (env s) = [] ++ new /\ puts (env s) = 0 + length new) /\
     Forall (fun uw => isReset uw \/ In uw []) (pool (env s))) /\
    puts (env s) = 1 /\ gets (env s) = 2.
Proof.
  destruct (C3_sent_items_released
              (plainRequest (sampleHeader ++ wire cpuRecord)) sampleEnv)
    as (_ & (ret & s & P) & H).
  exists ret, s. split; [exact P|]. split; [exact (H ret s P)|].
  destruct (ParseStream_counts _ _ _ _ P) as (_ & _ & _ & Hp & Hg & _).
  split; [exact Hp | exact Hg].
Defined.

Lemma C4_witness :
  exists s,
    ParseStream
      (plainRequest
         (sampleHeader
          ++ wireAll [cpuRecord; trailingRecord; emptyRecord; cpuRecord]))
      sampleEnv None s /\
    length (calls (env s)) = 2.
Proof.
  destruct (C4_callback_invocations
              (plainRequest
                 (sampleHeader
                  ++ wireAll [cpuRecord; trailingRecord; emptyRecord; cpuRecord]))
              sampleEnv sampleHeader
              [cpuRecord; trailingRecord; emptyRecord; cpuRecord])
    as ([(s & P) _] & H & _); [reflexivity | reflexivity | sample_records |].
  exists s. split; [exact P|]. exact (H None s P).
Defined.

Lemma C5_witness :
  unmarshal (workOf cpuRecord) (mkTimeRange 10 20) Counters_zero
  = (Ok (mkWork TimeRange_zero (nameBytes cpuRecord) (blockBytes cpuRecord)
                (mkBlock (nameBytes cpuRecord) [2%Z] [15%Z])),
     rowsRead_Add 1 Counters_zero) /\
  exists ret s,
    ParseStream (plainRequest (sampleHeader ++ wire cpuRecord)) sampleEnv ret s /\
    Forall (blockInRange (tr s)) (calls (env s)).
Proof.
  destruct (C5_time_range_filter
              (plainRequest (sampleHeader ++ wire cpuRecord)) sampleEnv)
    as (U & H).
  split.
  - apply (U (workOf cpuRecord) (mkTimeRange 10 20) Counters_zero
             (nameBytes cpuRecord) [(9, 1); (15, 2); (25, 3)]%Z);
      reflexivity.
  - destruct (ParseStream_returns
                (plainRequest (sampleHeader ++ wire cpuRecord)) sampleEnv)
      as (ret & s & P).
    exists ret, s. split; [exact P|].
    destruct (H s (proj1 P)) as (new & E & F). rewrite E. exact F.
Defined.

Lemma C6_witness :
  exists ret s,
    ParseStream (plainRequest (sampleHeader ++ wire cpuRecord)) sampleEnv ret s /\
    workCh s = [] /\ Forall (fun w => w = WExit) (workers s) /\ wg s = 0 /\
    inFlight s = [] /\ chClosed s = true /\ length (workers s) = 2.
Proof.
  destruct (C6_teardown (plainRequest (sampleHeader ++ wire cpuRecord)) sampleEnv)
    as ((ret & s & P) & _ & H).
  exists ret, s. split; [exact P|].
  destruct (H ret s P) as (A1 & A2 & A3 & A4 & A5).
  destruct (A5 _ eq_refl) as (A6 & A7). repeat split; assumption.
Defined.

Lemma C7_witness :
  returnsOnly (plainRequest []) sampleEnv (Some (ErrReadTimeRange EOF)) /\
  returnsOnly (plainRequest [x00; x00; x00]) sampleEnv
              (Some (ErrReadTimeRange ErrUnexpectedEOF)) /\
  forall s,
    steps (ParseStream_start (plainRequest (sampleHeader ++ wire cpuRecord))
                             sampleEnv) s ->
    tr s = mkTimeRange 10 20.
Proof.
  split; [|split].
  - destruct (C7_time_range_header (plainRequest []) sampleEnv
                (mkReader [] false) eq_refl) as (H & _).
    apply H. simpl. lia.
  - destruct (C7_time_range_header (plainRequest [x00; x00; x00]) sampleEnv
                (mkReader [x00; x00; x00] false) eq_refl) as (H & _).
    apply H. simpl. lia.
  - destruct (C7_time_range_header
                (plainRequest (sampleHeader ++ wire cpuRecord)) sampleEnv
                (mkReader (sampleHeader ++ wire cpuRecord) false) eq_refl)
      as (_ & H).
    apply (H sampleHeader (wire cpuRecord)); reflexivity.
Defined.

Lemma C8_witness :
  exists s,
    ParseStream
      (plainRequest
         (sampleHeader ++ wireAll ([cpuRecord] ++ trailingRecord :: [cpuRecord])))
      sampleEnv None s /\
    length (calls (env s)) = 2 /\
    parseErrors (cnt (env s)) = 1%N /\
    puts (env s) = 3.
Proof.
  destruct (C8_trailing_bytes
              (plainRequest
                 (sampleHeader
                  ++ wireAll ([cpuRecord] ++ trailingRecord :: [cpuRecord])))
              sampleEnv sampleHeader [cpuRecord] trailingRecord [cpuRecord]
              (nameBytes trailingRecord) [(15, 2)]%Z [xff])
    as (_ & _ & [(s & P) _] & H);
    [reflexivity | reflexivity | sample_records | reflexivity | reflexivity
    | discriminate |].
  exists s. split; [exact P|]. exact (H None s P).
Defined.

Lemma C9_witness :
  returnsOnly (plainRequest (sampleHeader ++ wireAll [emptyRecord; emptyRecord]))
              sampleEnv None /\
  exists s,
    ParseStream (plainRequest (sampleHeader ++ wireAll [emptyRecord; emptyRecord]))
                sampleEnv None s /\
    map bufsOf (sends (env s)) = [([], []); ([], [])] /\
    readErrors (cnt (env s)) = 0%N /\
    blocksRead (cnt (env s)) = 2%N /\
    puts (env s) = 2.
Proof.
  destruct (C9_zero_length_frames
              (plainRequest (sampleHeader ++ wireAll [emptyRecord; emptyRecord]))
              sampleEnv sampleHeader [emptyRecord; emptyRecord])
    as (_ & R & H);
    [reflexivity | reflexivity | sample_records
    | repeat (constructor; [left; reflexivity|]); constructor |].
  split; [exact R|]. destruct R as [(s & P) _].
  exists s. split; [exact P|]. exact (H None s P).
Defined.

Lemma C10_witness :
  readRecord (mkReader (overSize ++ [x01]) false) unmarshalWork_zero Counters_zero
  = (RecErr (ErrTooBigMetricNameSize 1048577),
     parseErrors_Inc (readCalls_Inc Counters_zero)) /\
  exists s,
    ParseStream (plainRequest (sampleHeader ++ overSize)) sampleEnv
                (Some (ErrTooBigMetricNameSize 1048577)) s /\
    readErrors (cnt (env s)) = 0%N /\
    parseErrors (cnt (env s)) = 1%N.
Proof.
  destruct (C10_limit_counts_as_parse_error
              (plainRequest (sampleHeader ++ overSize)) sampleEnv)
    as (A & _ & _ & H).
  split.
  - apply (A overSize [x01] false); reflexivity.
  - destruct (framed_stream (plainRequest (sampleHeader ++ overSize)) sampleEnv
                sampleHeader [] overSize false eq_refl eq_refl
                (Forall_nil _)) as [[(s & P) _] _].
    exists s. split; [exact P|]. exact (H _ s P).
Defined.

(** ** The further properties on the sample streams and nodes *)

#[local] Existing Instance sampleNodeImports.

Lemma gzip_failure_witness :
  returnsOnly (gzipRequest [x00]) sampleEnv (Some ErrGzip) /\
  bodyReader (mkRequest "GZIP" (mkReader [x00] false))
  = Some (mkReader [x00] false).
Proof.
  split.
  - destruct (gzip_failure_touches_nothing (gzipRequest [x00]) sampleEnv)
      as [H _].
    destruct (H eq_refl eq_refl) as [R _]. exact R.
  - destruct (gzip_failure_touches_nothing
                (mkRequest "GZIP" (mkReader [x00] false)) sampleEnv) as [_ H].
    apply H. discriminate.
Defined.

Lemma transport_failure_witness :
  returnsOnly (brokenRequest (sampleHeader ++ wire cpuRecord)) sampleEnv
              (Some (ErrReadMetricNameSize ErrTransport)) /\
  forall ret s,
    ParseStream (brokenRequest (sampleHeader ++ wire cpuRecord)) sampleEnv ret s ->
    ret <> None.
Proof.
  destruct (transport_failure_is_never_a_clean_end
              (brokenRequest (sampleHeader ++ wire cpuRecord)) sampleEnv
              (mkReader (sampleHeader ++ wire cpuRecord) true) eq_refl eq_refl)
    as (_ & N & H).
  split; [|exact N].
  destruct (H sampleHeader [cpuRecord]) as [R _];
    [reflexivity | reflexivity | sample_records | exact R].
Defined.

Lemma nil_exactly_witness :
  exists s,
    ParseStream (plainRequest (sampleHeader ++ wire cpuRecord ++ wire memRecord))
                sampleEnv None s.
Proof.
  apply (nil_exactly_on_whole_records
           (plainRequest (sampleHeader ++ wire cpuRecord ++ wire memRecord))
           sampleEnv sampleHeader (wire cpuRecord ++ wire memRecord) false
           eq_refl eq_refl).
  split; [reflexivity|]. exists [cpuRecord; memRecord].
  split; [reflexivity | sample_records].
Defined.

Lemma read_calls_witness :
  exists s,
    ParseStream (plainRequest (sampleHeader ++ wire cpuRecord ++ overSize))
                sampleEnv (Some (ErrTooBigMetricNameSize 1048577)) s /\
    blocksRead (cnt (env s)) = 1%N /\ readCalls (cnt (env s)) = 5%N.
Proof.
  destruct (framed_stream
              (plainRequest (sampleHeader ++ wire cpuRecord ++ overSize))
              sampleEnv sampleHeader [cpuRecord] overSize false eq_refl eq_refl)
    as [[(s & P) _] A]; [sample_records|].
  exists s. split; [exact P|].
  destruct (A _ s P) as (_ & _ & _ & _ & _ & _ & _ & _ & As).
  destruct (read_calls_accounting
              (plainRequest (sampleHeader ++ wire cpuRecord ++ overSize))
              sampleEnv) as [_ H].
  destruct (H _ s P) as (new & E & Hb & Hr).
  apply (f_equal (@length _)) in As. rewrite E in As.
  cbn [sends sampleEnv app map length] in As. rewrite length_map in As.
  simpl in As. rewrite As in Hb, Hr. split; [exact Hb | exact Hr].
Defined.

Lemma sample_tr (body : list byte) (s : sys) :
  steps (ParseStream_start (plainRequest (sampleHeader ++ body)) sampleEnv) s ->
  tr s = mkTimeRange 10 20.
Proof. intros R. now rewrite (steps_tr _ _ R). Qed.

Lemma callback_blocks_witness :
  exists ret s,
    ParseStream (plainRequest (sampleHeader ++ wire cpuRecord)) sampleEnv ret s /\
    calls (env s) = [cpuBlock].
Proof.
  destruct (callback_gets_the_decoded_blocks
              (plainRequest (sampleHeader ++ wire cpuRecord)) sampleEnv)
    as ((ret & s & P) & H & _).
  exists ret, s. split; [exact P|].
  destruct (H ret s P) as (new & E & HP).
  rewrite (sample_tr (wire cpuRecord) s (proj1 P)) in HP.
  apply Permutation_sym, Permutation_length_1_inv in HP.
  rewrite E, HP. reflexivity.
Defined.

Lemma single_worker_witness :
  exists ret s,
    ParseStream (Cl := singleCaller)
      (plainRequest (sampleHeader ++ wire cpuRecord ++ wire memRecord))
      sampleEnv ret s /\
    calls (env s) = [cpuBlock; memBlock].
Proof.
  destruct (ParseStream_returns (Cl := singleCaller)
              (plainRequest (sampleHeader ++ wire cpuRecord ++ wire memRecord))
              sampleEnv) as (ret & s & P).
  exists ret, s. split; [exact P|].
  rewrite (single_worker_keeps_stream_order (Cl := singleCaller)
             (plainRequest (sampleHeader ++ wire cpuRecord ++ wire memRecord))
             sampleEnv eq_refl ret s P).
  rewrite (steps_tr _ _ (proj1 P)). reflexivity.
Defined.

Lemma truncation_witness :
  exists err,
    isStreamReadError err = true /\
    returnsOnly (plainRequest (sampleHeader ++ wire cpuRecord ++ [x00; x00]))
                sampleEnv (Some err) /\
    forall ret s,
      ParseStream (plainRequest (sampleHeader ++ wire cpuRecord ++ [x00; x00]))
                  sampleEnv ret s ->
      map bufsOf (sends (env s)) = [payloads cpuRecord] /\
      exists new, calls (env s) = new /\ Permutation new [cpuBlock].
Proof.
  apply (truncation_keeps_earlier_records
           (plainRequest (sampleHeader ++ wire cpuRecord ++ [x00; x00]))
           sampleEnv sampleHeader [cpuRecord] [x00; x00]);
    [reflexivity | reflexivity | sample_records |].
  apply trunc_nameSize. simpl. lia.
Defined.

Lemma rows_read_witness :
  exists ret s,
    ParseStream (plainRequest (sampleHeader ++ wire cpuRecord ++ wire memRecord))
                sampleEnv ret s /\
    exists new,
      calls (env s) = [] ++ new /\
      rowsRead (cnt (env s)) = (0 + N.of_nat (rowsIn new))%N.
Proof.
  destruct (ParseStream_returns
              (plainRequest (sampleHeader ++ wire cpuRecord ++ wire memRecord))
              sampleEnv) as (ret & s & P).
  exists ret, s. split; [exact P|].
  exact (rows_read_are_the_rows_handed_over _ sampleEnv s (proj1 P)).
Defined.

Lemma process_errors_witness :
  exists ret s,
    ParseStream (plainRequest (sampleHeader ++ wire cpuRecord)) sampleEnv ret s /\
    processErrors (cnt (env s)) = 1%N.
Proof.
  destruct (callback_blocks_witness) as (ret & s & P & C).
  exists ret, s. split; [exact P|].
  destruct (process_errors_are_the_rejections _ sampleEnv s (proj1 P))
    as (new & E & Hp & _).
  rewrite C in E. simpl in E. subst new. exact Hp.
Defined.

Lemma in_flight_witness :
  exists ret s,
    ParseStream (plainRequest (sampleHeader ++ wire cpuRecord)) sampleEnv ret s /\
    length (workCh s) <= 16 /\ gets (env s) + 0 <= 0 + puts (env s) + 18 + 1 /\
    0 + puts (env s) <= gets (env s) + 0.
Proof.
  destruct (ParseStream_returns
              (plainRequest (sampleHeader ++ wire cpuRecord)) sampleEnv)
    as (ret & s & P).
  exists ret, s. split; [exact P|].
  exact (in_flight_is_bounded _ sampleEnv s (proj1 P)).
Defined.

Lemma pool_reset_witness :
  exists ret s,
    ParseStream (plainRequest (sampleHeader ++ wire cpuRecord)) sampleEnv ret s /\
    Forall isReset (pool (env s)).
Proof.
  destruct (ParseStream_returns
              (plainRequest (sampleHeader ++ wire cpuRecord)) sampleEnv)
    as (ret & s & P).
  exists ret, s. split; [exact P|].
  exact (proj1 (pool_hands_out_reset_items _ sampleEnv (Forall_nil _) s (proj1 P))).
Defined.

Lemma getAddrByType_witness :
  getAddrByType sampleAddresses "InternalIP" = ""%string /\
  getAddrByType sampleAddresses "ExternalIP" = "203.0.113.7"%string /\
  getAddrByType sampleAddresses "InternalDNS" = ""%string.
Proof.
  destruct (getAddrByType_first_match sampleAddresses "InternalIP") as [A _].
  destruct (getAddrByType_first_match sampleAddresses "ExternalIP") as [B _].
  destruct (getAddrByType_first_match sampleAddresses "InternalDNS") as [_ C].
  split; [|split].
  - apply (A [mkNodeAddress "Hostname" "node-1"] (mkNodeAddress "InternalIP" "")
             (skipn 2 sampleAddresses)); [reflexivity | reflexivity |].
    intros x [<-|[]]. discriminate.
  - apply (B (firstn 2 sampleAddresses) (mkNodeAddress "ExternalIP" "203.0.113.7")
             (skipn 3 sampleAddresses)); [reflexivity | reflexivity |].
    intros x [<-|[<-|[]]]; discriminate.
  - apply C. intros x [<-|[<-|[<-|[<-|[<-|[]]]]]]; discriminate.
Defined.

Lemma getNodeAddr_witness :
  getNodeAddr sampleAddresses = "203.0.113.7"%string.
Proof.
  destruct (getNodeAddr_priority sampleAddresses) as (_ & P & _).
  apply (P ["InternalIP"; "InternalDNS"]%string "ExternalIP"%string
           ["ExternalDNS"; "LegacyHostIP"; "Hostname"]%string);
    [reflexivity | | discriminate].
  intros t [<-|[<-|[]]]; reflexivity.
Defined.

Lemma node_labels_witness :
  length (getNodesLabels [sampleNode; bareNode; sampleNode]) = 2 /\
  appendTargetLabels bareNode [] = [].
Proof.
  destruct (one_label_set_per_addressed_node [sampleNode; bareNode; sampleNode])
    as (_ & L & A).
  split; [exact L|]. apply (proj1 (A bareNode [])). reflexivity.
Defined.

Lemma address_labels_witness :
  exists m,
    appendTargetLabels sampleNode [] = [m] /\
    amap_get "__meta_kubernetes_node_address_InternalIP" m = Some ""%string /\
    amap_get "__meta_kubernetes_node_address_ExternalIP" m
    = Some "203.0.113.7"%string /\
    amap_get "__address__" m = Some "203.0.113.7:10250"%string.
Proof.
  destruct (address_labels_first_entry_wins sampleNode []) as (m & E & A & O & B & _);
    [discriminate|].
  exists m. split; [exact E|]. split; [|split].
  - apply (A "InternalIP"%string (mkNodeAddress "InternalIP" ""));
      [intros x _ H; exact H | reflexivity].
  - apply (A "ExternalIP"%string (mkNodeAddress "ExternalIP" "203.0.113.7"));
      [intros x _ H; exact H | reflexivity].
  - rewrite O; [exact B|].
    intros x [<-|[<-|[<-|[<-|[<-|[]]]]]]; discriminate.
Defined.

Lemma parseNodeList_witness :
  parseNodeList sampleDecoded []
  = (None, tt, Some (ErrUnmarshalNodeList [] "unexpected end of JSON input")) /\
  exists objectsByKey,
    parseNodeList sampleDecoded [x00] = (Some objectsByKey, tt, None) /\
    amap_get "node-1" objectsByKey = Some laterNode /\
    amap_get "node-2" objectsByKey = Some bareNode /\
    amap_get "node-3" objectsByKey = None.
Proof.
  destruct (parseNodeList_last_item_wins sampleDecoded []) as [A _].
  destruct (parseNodeList_last_item_wins sampleDecoded [x00]) as [_ B].
  split; [exact (A _ _ eq_refl)|].
  destruct (B _ eq_refl) as (m & E & _ & G).
  exists m. split; [exact E|]. rewrite !G. repeat split.
Defined.
